(** * keras/saving/experimental/saving_lib.py

    A shallow embedding of the object-graph walker, the three stores and the
    top-level save/load operations of [saving_lib.py], with the properties
    that the specification states about them. *)

From Stdlib Require Import Ascii.
From stdpp Require Import gmap strings list fin_maps pretty.

(** ** The object graph

    A Python object is identified by [id(obj)], here a natural number, and
    the live objects form a finite heap.  Only Keras trackables (the
    instances for which [_is_keras_trackable] answers [True]) are heap
    cells; every other value is kept as far as the walker inspects it. *)

(** An element met when iterating a container ([for trackable in container]). *)
Inductive elem :=
  | ETrackable (ref : nat)   (* [_is_keras_trackable(trackable)] holds *)
  | EOther.                  (* anything else, nested containers included *)

(** What [getattr(trackable, child_attr)] gives. *)
Inductive value :=
  | VTrackable (ref : nat)          (* a Layer, Optimizer, Metric or Loss *)
  | VContainer (elts : list elem)
      (* a list, dict, tuple or set: what iterating it yields, in order *)
  | VOther                          (* any other value *)
  | VRaises.                        (* the access raises an exception *)

(** A trackable: the name of its class and the names that [dir] lists, in
    the order in which [dir] lists them, each with its value. *)
Record obj := Obj {
  class_name : string;
  attrs : list (string * value)
}.

Abbreviation heap := (gmap nat obj).

Definition ATTR_SKIPLIST : list string :=
  [ "_callable_losses";
    "_captured_weight_regularizer";
    "_checkpoint_dependencies";
    "_deferred_dependencies";
    "_eager_losses";
    "_inbound_nodes";
    "_inbound_nodes_value";
    "_output_layers";
    "_input_layers";
    "_keras_api_names";
    "_keras_api_names_v1";
    "_name_based_restores";
    "_non_trainable_weights";
    "_outbound_nodes";
    "_outbound_nodes_value";
    "_saved_model_arg_spec";
    "_self_name_based_restores";
    "_self_saveable_object_factories";
    "_self_tracked_trackables";
    "_self_unconditional_checkpoint_dependencies";
    "_self_unconditional_deferred_dependencies";
    "_self_unconditional_dependency_names";
    "_tf_api_names";
    "_tf_api_names_v1";
    "_trainable_weights";
    "_non_trainable_weights";
    "_unconditional_checkpoint_dependencies";
    "_unconditional_dependency_names";
    "_updates";
    "inbound_nodes";
    "submodules";
    "weights";
    "non_trainable_weights";
    "trainable_weights";
    "variables";
    "non_trainable_variables";
    "trainable_variables";
    "updates";
    "state_updates" ].

(** [getattr(o, name)] on the attribute table of [o]. *)
Fixpoint assoc {A} (name : string) (l : list (string * A)) : option A :=
  match l with
  | [] => None
  | (k, v) :: l' => if bool_decide (k = name) then Some v else assoc name l'
  end.

(** [hasattr(o, name)]: the name is bound and reading it does not raise. *)
Definition hasattr (o : obj) (name : string) : bool :=
  match assoc name (attrs o) with
  | Some VRaises | None => false
  | Some _ => true
  end.

(** ** What the walker does to the outside

    The walker owns the visited set; everything else it does is a call on
    a collaborator.  The trace keeps those calls in the order in which they
    are made.  A hook or a store that raises ends the whole operation with
    its exception (the walker catches none but those of [getattr]); the
    walk below is that of a run in which they return. *)
Inductive event :=
  | Call (id : nat) (inner_path : string)
      (* [_save_state] or [_load_state] is entered for [id] with [inner_path] *)
  | OwnVariables (id : nat) (inner_path : string)
      (* the numeric hook of [id] runs on [weights_store.make(inner_path)]
         (when saving) or on [weights_store.get(inner_path)] (when loading) *)
  | OwnAssets (id : nat) (inner_path : string)
      (* the asset hook of [id] runs on [assets_store.make(inner_path)] or
         on [assets_store.get(inner_path)] *)
  | Add (id : nat).
      (* [visited_trackables.add(id)] *)

Record wstate := WState {
  visited_trackables : gset nat;
  trace : list event
}.

Definition emit (e : event) (st : wstate) : wstate :=
  WState (visited_trackables st) (trace st ++ [e]).

Definition add_visited (id : nat) (st : wstate) : wstate :=
  WState ({[ id ]} ∪ visited_trackables st) (trace st ++ [Add id]).

(** The state in which every top-level operation starts its walk:
    [visited_trackables=set()]. *)
Definition fresh : wstate := WState ∅ [].

Section Walker.
(** [generic_utils.to_snake_case] and [tf.io.gfile.join] are defined
    outside this file; the walker is parametric in both. *)
Variable to_snake_case : string → string.
Variable join : string → string → string.

(** The heap, and whether each store argument is truthy ([None] is not). *)
Variable h : heap.
Variable weights_store assets_store : bool.

(** The name under which a trackable element of a container is filed. *)
Definition elem_name (ref : nat) : string :=
  to_snake_case (default "" (class_name <$> h !! ref)).

(** [_save_container_state]; [rec] is [_save_state] with the stores fixed. *)
Fixpoint save_container_loop (rec : nat → string → wstate → option wstate)
    (container : list elem) (inner_path : string)
    (used_names : gmap string nat) (st : wstate) : option wstate :=
  match container with
  | [] => Some st
  | EOther :: rest => save_container_loop rec rest inner_path used_names st
  | ETrackable trackable :: rest =>
      let name := elem_name trackable in
      let '(used_names, name) :=
        match used_names !! name with
        | Some c =>
            (<[ name := S c ]> used_names, name +:+ "_" +:+ pretty (S c))
        | None => (<[ name := 0 ]> used_names, name)
        end in
      st ← rec trackable (join inner_path name) st;
      save_container_loop rec rest inner_path used_names st
  end.

Definition _save_container_state (rec : nat → string → wstate → option wstate)
    (container : list elem) (inner_path : string) (st : wstate)
    : option wstate :=
  save_container_loop rec container inner_path ∅ st.

(** The loop [for child_attr in dir(trackable)] of [_save_state]. *)
Fixpoint save_children (rec : nat → string → wstate → option wstate)
    (dir : list (string * value)) (inner_path : string) (st : wstate)
    : option wstate :=
  match dir with
  | [] => Some st
  | (child_attr, child_obj) :: rest =>
      if String.prefix "__" child_attr
         || bool_decide (child_attr ∈ ATTR_SKIPLIST)
      then save_children rec rest inner_path st
      else
        match child_obj with
        | VRaises => save_children rec rest inner_path st
        | VTrackable child =>
            st ← rec child (join inner_path child_attr) st;
            save_children rec rest inner_path st
        | VContainer elts =>
            st ← _save_container_state rec elts
                   (join inner_path child_attr) st;
            save_children rec rest inner_path st
        | VOther => save_children rec rest inner_path st
        end
  end.

(** [_save_state].  The recursion of the source is bounded here by
    [fuel]; [None] is the answer when the fuel runs out, or when a
    reference leaves the heap. *)
Fixpoint _save_state (fuel : nat) (trackable : nat) (inner_path : string)
    (st : wstate) : option wstate :=
  match fuel with
  | 0 => None
  | S fuel =>
      let st := emit (Call trackable inner_path) st in
      if bool_decide (trackable ∈ visited_trackables st) then Some st
      else
        o ← h !! trackable;
        let st :=
          if hasattr o "_save_own_variables" && weights_store
          then emit (OwnVariables trackable inner_path) st else st in
        let st :=
          if hasattr o "_save_assets" && assets_store
          then emit (OwnAssets trackable inner_path) st else st in
        let st := add_visited trackable st in
        save_children (_save_state fuel) (attrs o) inner_path st
  end.

(** [_load_container_state]; [rec] is [_load_state] with the stores fixed. *)
Fixpoint load_container_loop (rec : nat → string → wstate → option wstate)
    (container : list elem) (inner_path : string)
    (used_names : gmap string nat) (st : wstate) : option wstate :=
  match container with
  | [] => Some st
  | EOther :: rest => load_container_loop rec rest inner_path used_names st
  | ETrackable trackable :: rest =>
      let name := elem_name trackable in
      let '(used_names, name) :=
        match used_names !! name with
        | Some c =>
            (<[ name := S c ]> used_names, name +:+ "_" +:+ pretty (S c))
        | None => (<[ name := 0 ]> used_names, name)
        end in
      st ← rec trackable (join inner_path name) st;
      load_container_loop rec rest inner_path used_names st
  end.

Definition _load_container_state (rec : nat → string → wstate → option wstate)
    (container : list elem) (inner_path : string) (st : wstate)
    : option wstate :=
  load_container_loop rec container inner_path ∅ st.

(** The loop [for child_attr in dir(trackable)] of [_load_state]. *)
Fixpoint load_children (rec : nat → string → wstate → option wstate)
    (dir : list (string * value)) (inner_path : string) (st : wstate)
    : option wstate :=
  match dir with
  | [] => Some st
  | (child_attr, child_obj) :: rest =>
      if String.prefix "__" child_attr
         || bool_decide (child_attr ∈ ATTR_SKIPLIST)
      then load_children rec rest inner_path st
      else
        match child_obj with
        | VRaises => load_children rec rest inner_path st
        | VTrackable child =>
            st ← rec child (join inner_path child_attr) st;
            load_children rec rest inner_path st
        | VContainer elts =>
            st ← _load_container_state rec elts
                   (join inner_path child_attr) st;
            load_children rec rest inner_path st
        | VOther => load_children rec rest inner_path st
        end
  end.

(** [_load_state], bounded by [fuel] as [_save_state] is. *)
Fixpoint _load_state (fuel : nat) (trackable : nat) (inner_path : string)
    (st : wstate) : option wstate :=
  match fuel with
  | 0 => None
  | S fuel =>
      let st := emit (Call trackable inner_path) st in
      if bool_decide (trackable ∈ visited_trackables st) then Some st
      else
        o ← h !! trackable;
        let st :=
          if hasattr o "_load_own_variables" && weights_store
          then emit (OwnVariables trackable inner_path) st else st in
        let st :=
          if hasattr o "_load_assets" && assets_store
          then emit (OwnAssets trackable inner_path) st else st in
        let st := add_visited trackable st in
        load_children (_load_state fuel) (attrs o) inner_path st
  end.
End Walker.

(** ** One walker for both directions

    [_save_state] and [_load_state] differ in the names of the two hooks
    they look for, and in nothing else.  [walk] takes the two names; the
    facts about the traversal are proved once, on [walk], and carried to
    the two functions of the source by [save_state_walk] and
    [load_state_walk] below. *)
Section Walk.
Variable to_snake_case : string → string.
Variable join : string → string → string.
Variable h : heap.
Variable hook_variables hook_assets : string.
Variable weights_store assets_store : bool.

Fixpoint walk_container_loop (rec : nat → string → wstate → option wstate)
    (container : list elem) (inner_path : string)
    (used_names : gmap string nat) (st : wstate) : option wstate :=
  match container with
  | [] => Some st
  | EOther :: rest => walk_container_loop rec rest inner_path used_names st
  | ETrackable trackable :: rest =>
      let name := elem_name to_snake_case h trackable in
      let '(used_names, name) :=
        match used_names !! name with
        | Some c =>
            (<[ name := S c ]> used_names, name +:+ "_" +:+ pretty (S c))
        | None => (<[ name := 0 ]> used_names, name)
        end in
      st ← rec trackable (join inner_path name) st;
      walk_container_loop rec rest inner_path used_names st
  end.

Fixpoint walk_children (rec : nat → string → wstate → option wstate)
    (dir : list (string * value)) (inner_path : string) (st : wstate)
    : option wstate :=
  match dir with
  | [] => Some st
  | (child_attr, child_obj) :: rest =>
      if String.prefix "__" child_attr
         || bool_decide (child_attr ∈ ATTR_SKIPLIST)
      then walk_children rec rest inner_path st
      else
        match child_obj with
        | VRaises => walk_children rec rest inner_path st
        | VTrackable child =>
            st ← rec child (join inner_path child_attr) st;
            walk_children rec rest inner_path st
        | VContainer elts =>
            st ← walk_container_loop rec elts
                   (join inner_path child_attr) ∅ st;
            walk_children rec rest inner_path st
        | VOther => walk_children rec rest inner_path st
        end
  end.

(** What one entry of the walker does before it turns to the children. *)
Definition enter (o : obj) (trackable : nat) (inner_path : string)
    (st : wstate) : wstate :=
  let st :=
    if hasattr o hook_variables && weights_store
    then emit (OwnVariables trackable inner_path) st else st in
  let st :=
    if hasattr o hook_assets && assets_store
    then emit (OwnAssets trackable inner_path) st else st in
  add_visited trackable st.

Fixpoint walk (fuel : nat) (trackable : nat) (inner_path : string)
    (st : wstate) : option wstate :=
  match fuel with
  | 0 => None
  | S fuel =>
      let st := emit (Call trackable inner_path) st in
      if bool_decide (trackable ∈ visited_trackables st) then Some st
      else
        o ← h !! trackable;
        walk_children (walk fuel) (attrs o) inner_path
          (enter o trackable inner_path st)
  end.
End Walk.

(** ** Reading a trace *)

(** The identities added to the visited set, in order. *)
Definition adds (tr : list event) : list nat :=
  omap (λ e, match e with Add i => Some i | _ => None end) tr.

(** The paths with which the walker was entered for [id], in order. *)
Definition call_paths (id : nat) (tr : list event) : list string :=
  omap (λ e, match e with
             | Call i p => if decide (i = id) then Some p else None
             | _ => None
             end) tr.

(** The path at which [id] was met first. *)
Definition first_call (id : nat) (tr : list event) : option string :=
  head (call_paths id tr).

(** The store locations handed to the numeric hook of [id], in order. *)
Definition variables_paths (id : nat) (tr : list event) : list string :=
  omap (λ e, match e with
             | OwnVariables i p => if decide (i = id) then Some p else None
             | _ => None
             end) tr.

(** The store locations handed to the asset hook of [id], in order. *)
Definition assets_paths (id : nat) (tr : list event) : list string :=
  omap (λ e, match e with
             | OwnAssets i p => if decide (i = id) then Some p else None
             | _ => None
             end) tr.

(** ** Reachability *)

(** Whether the loop over [dir(trackable)] goes on to look at the value. *)
Definition traversed (child_attr : string) (child_obj : value) : bool :=
  negb (String.prefix "__" child_attr)
  && negb (bool_decide (child_attr ∈ ATTR_SKIPLIST))
  && match child_obj with VRaises => false | _ => true end.

Definition elem_refs (elts : list elem) : list nat :=
  omap (λ e, match e with ETrackable r => Some r | EOther => None end) elts.

Definition value_refs (v : value) : list nat :=
  match v with
  | VTrackable r => [r]
  | VContainer elts => elem_refs elts
  | VOther | VRaises => []
  end.

(** The trackables that the walker can step to from [o]. *)
Definition children (o : obj) : list nat :=
  flat_map (λ '(child_attr, child_obj),
              if traversed child_attr child_obj then value_refs child_obj
              else [])
           (attrs o).

Definition edge (h : heap) (a b : nat) : Prop :=
  ∃ o, h !! a = Some o ∧ b ∈ children o.

Definition reachable (h : heap) (root id : nat) : Prop := rtc (edge h) root id.

(** Every reference the walker can follow leads to a live object, as every
    Python reference does. *)
Definition heap_closed (h : heap) : Prop :=
  map_Forall (λ _ o, Forall (λ b, is_Some (h !! b)) (children o)) h.

(** ** Collaborators for the worked examples *)

(** [s.endswith(suffix)] *)
Definition endswith (s suffix : string) : bool :=
  String.prefix (String.rev suffix) (String.rev s).

(** [os.path.join] on two POSIX components, which is what
    [tf.io.gfile.join] amounts to on local paths. *)
Definition posix_join (a b : string) : string :=
  if String.prefix "/" b then b
  else if bool_decide (a = "") || endswith a "/" then a +:+ b
  else a +:+ "/" +:+ b.

(** The classes of the examples have names of one capitalised word, of
    which [to_snake_case] only lowers the capital. *)
Definition lower (c : ascii) : ascii :=
  let n := nat_of_ascii c in
  if (65 <=? n) && (n <=? 90) then ascii_of_nat (n + 32) else c.

Fixpoint one_word (class : string) : string :=
  match class with
  | EmptyString => EmptyString
  | String c s => String (lower c) (one_word s)
  end.

(** A model that holds one layer under two attributes and twice in a list,
    next to a second layer of the same class; the first layer points back
    at the model, and [weights] is one of the skipped names. *)
Definition shared_graph : heap :=
  list_to_map
    [ (0, Obj "Model"
            [ ("__dict__", VOther);
              ("_load_own_variables", VOther);
              ("_save_own_variables", VOther);
              ("first", VTrackable 1);
              ("layers",
               VContainer [ETrackable 1; ETrackable 1; EOther; ETrackable 2]);
              ("second", VTrackable 1);
              ("weights", VTrackable 3) ]);
      (1, Obj "Foo"
            [ ("_load_own_variables", VOther);
              ("_save_assets", VOther);
              ("_save_own_variables", VOther);
              ("owner", VTrackable 0) ]);
      (2, Obj "Foo"
            [ ("_load_own_variables", VOther);
              ("_save_own_variables", VOther);
              ("broken", VRaises) ]);
      (3, Obj "Variable" [ ("_save_own_variables", VOther) ]) ].

(** ** The naming policy, in the words of the specification *)

(** How often [base] occurs in [earlier]. *)
Definition occurrences (base : string) (earlier : list string) : nat :=
  length (filter (λ n, n = base) earlier).

(** "First occurrence: name used as-is.  Repeat occurrence: append
    [_{counter}]", the counter of the k-th repeat being k.  [earlier] holds
    the type-derived names of the trackable elements met so far. *)
Definition spec_name (earlier : list string) (base : string) : string :=
  match occurrences base earlier with
  | 0 => base
  | S k => base +:+ "_" +:+ pretty (S k)
  end.

(** The trackable elements of a container with the names they are to get,
    in encounter order; "non-trackable elements are silently skipped". *)
Fixpoint spec_calls (to_snake_case : string → string) (h : heap)
    (earlier : list string) (container : list elem) : list (nat * string) :=
  match container with
  | [] => []
  | EOther :: rest => spec_calls to_snake_case h earlier rest
  | ETrackable r :: rest =>
      let base := elem_name to_snake_case h r in
      (r, spec_name earlier base)
      :: spec_calls to_snake_case h (earlier ++ [base]) rest
  end.

(** Entering the walker for each listed element in turn, under
    [inner_path]. *)
Fixpoint run_calls (join : string → string → string)
    (rec : nat → string → wstate → option wstate) (inner_path : string)
    (calls : list (nat * string)) (st : wstate) : option wstate :=
  match calls with
  | [] => Some st
  | (r, name) :: rest =>
      st ← rec r (join inner_path name) st;
      run_calls join rec inner_path rest st
  end.

Definition is_trackable (e : elem) : bool :=
  match e with ETrackable _ => true | EOther => false end.

(** The counter that [used_names] holds for [base] once the names in
    [earlier] have been seen: none before the first occurrence, 0 at the
    first, one more at each repeat. *)
Definition counter_after (earlier : list string) (base : string) : option nat :=
  match occurrences base earlier with
  | 0 => None
  | S k => Some k
  end.

(** ** Handing an attribute value on, in the words of the specification *)

(** "If it is itself a trackable node, recurse with [path/attr_name].  Else
    if it is a container, hand it to the Container step with
    [path/attr_name]; non-container, non-trackable values are ignored."
    [container_step] is [_save_container_state] or
    [_load_container_state]. *)
Definition hand_on (join : string → string → string)
    (rec : nat → string → wstate → option wstate)
    (container_step : list elem → string → wstate → option wstate)
    (child_attr : string) (child_obj : value) (inner_path : string)
    (st : wstate) : option wstate :=
  match child_obj with
  | VTrackable child => rec child (join inner_path child_attr) st
  | VContainer elts => container_step elts (join inner_path child_attr) st
  | VOther | VRaises => Some st
  end.

(** Whether the name alone keeps an attribute out of the traversal. *)
Definition skipped_name (child_attr : string) : bool :=
  String.prefix "__" child_attr || bool_decide (child_attr ∈ ATTR_SKIPLIST).

(** The object without its double-underscore and skip-listed attributes,
    and the heap of such objects. *)
Definition without_skipped (o : obj) : obj :=
  Obj (class_name o)
      (filter (λ '(child_attr, _), skipped_name child_attr = false) (attrs o)).

Definition heap_without_skipped (h : heap) : heap := without_skipped <$> h.

(** ** Structurally matching graphs

    The graph that is loaded into is another set of objects: it matches
    the saved one when it is the saved one with every identity [i]
    replaced by some [f i], class names, attribute names and their order,
    container contents and their order being the same. *)
Definition rename_elem (f : nat → nat) (e : elem) : elem :=
  match e with
  | ETrackable r => ETrackable (f r)
  | EOther => EOther
  end.

Definition rename_value (f : nat → nat) (v : value) : value :=
  match v with
  | VTrackable r => VTrackable (f r)
  | VContainer elts => VContainer (rename_elem f <$> elts)
  | VOther => VOther
  | VRaises => VRaises
  end.

Definition rename_obj (f : nat → nat) (o : obj) : obj :=
  Obj (class_name o) (prod_map id (rename_value f) <$> attrs o).

#[global] Instance elem_eq_dec : EqDecision elem.
Proof. solve_decision. Defined.
#[global] Instance value_eq_dec : EqDecision value.
Proof. solve_decision. Defined.
#[global] Instance obj_eq_dec : EqDecision obj.
Proof. solve_decision. Defined.
#[global] Instance event_eq_dec : EqDecision event.
Proof. solve_decision. Defined.

Definition matching (f : nat → nat) (h1 h2 : heap) : Prop :=
  dom h2 = set_map f (dom h1)
  ∧ map_Forall (λ i o, h2 !! f i = Some (rename_obj f o)) h1.

(** The entries of the walker, in order: for which node, with which path. *)
Definition calls (tr : list event) : list (nat * string) :=
  omap (λ e, match e with Call i p => Some (i, p) | _ => None end) tr.

(** [shared_graph] as it could be after [deserialize_keras_object] has
    built it anew. *)
Definition shared_graph_rebuilt : heap :=
  list_to_map
    [ (10, Obj "Model"
            [ ("__dict__", VOther);
              ("_load_own_variables", VOther);
              ("_save_own_variables", VOther);
              ("first", VTrackable 11);
              ("layers",
               VContainer [ETrackable 11; ETrackable 11; EOther;
                           ETrackable 12]);
              ("second", VTrackable 11);
              ("weights", VTrackable 13) ]);
      (11, Obj "Foo"
            [ ("_load_own_variables", VOther);
              ("_save_assets", VOther);
              ("_save_own_variables", VOther);
              ("owner", VTrackable 10) ]);
      (12, Obj "Foo"
            [ ("_load_own_variables", VOther);
              ("_save_own_variables", VOther);
              ("broken", VRaises) ]);
      (13, Obj "Variable" [ ("_save_own_variables", VOther) ]) ].

(** A model whose list holds one layer twice and then a second layer of
    the same class. *)
Definition twice_in_a_list : heap :=
  list_to_map
    [ (0, Obj "Model"
            [ ("layers", VContainer [ETrackable 1; ETrackable 1; ETrackable 2]) ]);
      (1, Obj "Foo" [ ("_save_own_variables", VOther) ]);
      (2, Obj "Foo" [ ("_save_own_variables", VOther) ]) ].

(** The set of logical paths that a walk has computed. *)
Definition paths (tr : list event) : gset string :=
  list_to_set (calls tr).*2.

(** ** What is stated of a walk *)

(** From [st] to [st'] the visited set and the trace have only grown. *)
Definition grows (st st' : wstate) : Prop :=
  visited_trackables st ⊆ visited_trackables st'
  ∧ ∃ d, trace st' = trace st ++ d.

Definition rec_grows (rec : nat → string → wstate → option wstate) : Prop :=
  ∀ i p st st', rec i p st = Some st' → grows st st'.

(** Whatever [rec1] returns, [rec2] returns. *)
Definition rec_le (rec1 rec2 : nat → string → wstate → option wstate) :=
  ∀ i p st st', rec1 i p st = Some st' → rec2 i p st = Some st'.

Section Properties.
Context (h : heap) (hv ha : string) (ws ast : bool).

(** The visited set and the trace tell the same story: the set holds the
    identities that were added, none was added twice, a node in the set
    was met first at some path and had its hooks run there and nowhere
    else, and a node outside the set was never entered. *)
Record consistent (st : wstate) : Prop := {
  cons_set : visited_trackables st = list_to_set (adds (trace st));
  cons_nodup : NoDup (adds (trace st));
  cons_in : ∀ id, id ∈ visited_trackables st →
    ∃ o p, h !! id = Some o
           ∧ first_call id (trace st) = Some p
           ∧ variables_paths id (trace st)
             = (if hasattr o hv && ws then [p] else [])
           ∧ assets_paths id (trace st)
             = (if hasattr o ha && ast then [p] else []);
  cons_out : ∀ id, id ∉ visited_trackables st →
    call_paths id (trace st) = []
    ∧ variables_paths id (trace st) = []
    ∧ assets_paths id (trace st) = []
}.

Definition keeps_consistent (st st' : wstate) : Prop :=
  consistent st → consistent st'.

(** How many objects of the heap are not visited yet. *)
Definition unvisited (st : wstate) : nat :=
  size (dom h ∖ visited_trackables st).

(** [rec] returns, on a live object, whenever fewer than [fuel] objects
    are left to visit. *)
Definition returns_below (fuel : nat)
    (rec : nat → string → wstate → option wstate) : Prop :=
  ∀ i p st, is_Some (h !! i) → unvisited st < fuel →
            ∃ st', rec i p st = Some st' ∧ grows st st'.

Definition refs_live (l : list (string * value)) : Prop :=
  ∀ a v r, (a, v) ∈ l → traversed a v = true → r ∈ value_refs v →
           is_Some (h !! r).

(** The visited nodes that are not being walked any more ([G] holds the
    ones that are) have all their children visited. *)
Definition settled (G : gset nat) (st : wstate) : Prop :=
  ∀ a o b, a ∈ visited_trackables st → a ∉ G → h !! a = Some o →
           b ∈ children o → b ∈ visited_trackables st.

Definition settles (rec : nat → string → wstate → option wstate) : Prop :=
  ∀ G i p st st', rec i p st = Some st' → settled G st →
                  settled G st' ∧ i ∈ visited_trackables st'.

(** Only nodes within reach of [root] are visited. *)
Definition within (root : nat) (st : wstate) : Prop :=
  ∀ id, id ∈ visited_trackables st → reachable h root id.

Definition stays_within (root : nat)
    (rec : nat → string → wstate → option wstate) : Prop :=
  ∀ i p st st', reachable h root i → within root st →
                rec i p st = Some st' → within root st'.

(** Each identity is added to the visited set at most once and has each
    hook run at most once; a node within reach of the root is added once,
    met first at a path [p], and has each of its hooks run once on the
    store location of [p] when it has the hook and the store is there,
    and not at all otherwise; a node out of reach is not added. *)
Definition visits_once (root : nat) (st : wstate) : Prop :=
  NoDup (adds (trace st))
  ∧ (∀ id, length (variables_paths id (trace st)) ≤ 1
           ∧ length (assets_paths id (trace st)) ≤ 1)
  ∧ (∀ id, id ∈ adds (trace st) → reachable h root id)
  ∧ ∀ id, reachable h root id →
      id ∈ adds (trace st)
      ∧ ∃ o p, h !! id = Some o
          ∧ first_call id (trace st) = Some p
          ∧ variables_paths id (trace st)
            = (if hasattr o hv && ws then [p] else [])
          ∧ assets_paths id (trace st)
            = (if hasattr o ha && ast then [p] else []).
End Properties.

Section InStep.
Context (f : nat → nat).

(** The two walks have visited matching nodes, through the same entries. *)
Definition in_step (s1 s2 : wstate) : Prop :=
  visited_trackables s2 = set_map f (visited_trackables s1)
  ∧ calls (trace s2) = prod_map f id <$> calls (trace s1)
  ∧ adds (trace s2) = f <$> adds (trace s1).

(** [rec2] keeps in step with [rec1]. *)
Definition follows (rec1 rec2 : nat → string → wstate → option wstate)
    : Prop :=
  ∀ i p s1 s2 s1', in_step s1 s2 → rec1 i p s1 = Some s1' →
                   ∃ s2', rec2 (f i) p s2 = Some s2' ∧ in_step s1' s2'.
End InStep.

(** ** Exceptions *)

Inductive exn :=
  | ValueError (msg : string)
  | ImportError (msg : string)
  | KeyError (key : string)
  | AttributeError (name : string)
  | UnboundLocalError (name : string)
  | Failure (call : string).   (* raised inside the collaborator [call] *)

Inductive result (A : Type) :=
  | Ok (a : A)
  | Raise (e : exn).
Arguments Ok {A} a.
Arguments Raise {A} e.

#[global] Instance result_ret : MRet result := λ A a, Ok a.
#[global] Instance result_bind : MBind result := λ A B k m,
  match m with
  | Ok a => k a
  | Raise e => Raise e
  end.
#[global] Instance result_fmap : FMap result := λ A B g m,
  match m with
  | Ok a => Ok (g a)
  | Raise e => Raise e
  end.

Definition raised {A} (m : result A) : bool :=
  match m with Ok _ => false | Raise _ => true end.

(** ** The HDF5 store

    An HDF5 file is a tree of groups with datasets at the leaves.  Of
    [h5py] the store uses [name in group] and [group[name]], both of which
    follow a slash-separated name down the tree. *)
Inductive h5obj :=
  | H5Dataset (data : list Z)
  | H5Group (members : list (string * h5obj)).

Fixpoint split_at_slash (cur : string) (s : string) : list string :=
  match s with
  | EmptyString => [String.rev cur]
  | String c s' =>
      if Ascii.eqb c "/" then String.rev cur :: split_at_slash "" s'
      else split_at_slash (String c cur) s'
  end.

(** The components of a name; empty ones do not count. *)
Definition components (name : string) : list string :=
  filter (λ c, c ≠ "") (split_at_slash "" name).

Fixpoint h5_resolve (o : h5obj) (cs : list string) : option h5obj :=
  match cs with
  | [] => Some o
  | c :: cs =>
      match o with
      | H5Group members => o' ← assoc c members; h5_resolve o' cs
      | H5Dataset _ => None
      end
  end.

(** [name in o] *)
Definition h5_contains (o : h5obj) (name : string) : bool :=
  bool_decide (is_Some (h5_resolve o (components name))).

(** [o[name]] *)
Definition h5_getitem (o : h5obj) (name : string) : result h5obj :=
  match h5_resolve o (components name) with
  | Some o' => Ok o'
  | None => Raise (KeyError name)
  end.

Record H5IOStore := {
  h5_root_path : string;
  h5_mode : string;
  h5_file : h5obj
}.

(** What a numeric store hands to [_load_own_variables]. *)
Inductive h5_handle :=
  | H5Vars (group : h5obj)   (* the ["vars"] group of the path *)
  | H5Nothing.               (* the empty dict [{}] *)

Definition H5IOStore_get (self : H5IOStore) (path : string)
    : result h5_handle :=
  if bool_decide (path = "") then
    H5Vars <$> h5_getitem (h5_file self) "vars"
  else if h5_contains (h5_file self) path
          && match h5_getitem (h5_file self) path with
             | Ok g => h5_contains g "vars"
             | Raise _ => false
             end
  then
    g ← h5_getitem (h5_file self) path;
    H5Vars <$> h5_getitem g "vars"
  else Ok H5Nothing.

(** ** The NumPy store

    [contents] maps a path to the variables stored under it.  In write
    mode it is a dict that [make] fills.  In read mode it is the
    [NpzFile] that [np.load] gave: NumPy documents it as a dictionary-like
    object with lazy loading, which knows the names in the file from the
    start and reads and unpickles an entry from the open file each time
    the entry is asked for.  [f] is the file handle ([None] before a file
    is opened), and [unpickled] lists the entries read from the file so
    far. *)
Record NpzIOStore := {
  npz_root_path : string;
  npz_mode : string;
  contents : gmap string (gmap string (list Z));
  f : option bool;              (* [Some true]: open; [Some false]: closed *)
  unpickled : list string
}.

(** [NpzIOStore.__init__]; [file] is what the file at [root_path] holds. *)
Definition NpzIOStore_init (root_path : string) (mode : string)
    (file : gmap string (gmap string (list Z))) : NpzIOStore :=
  if bool_decide (mode = "w") then
    {| npz_root_path := root_path; npz_mode := mode; contents := ∅;
       f := None; unpickled := [] |}
  else
    {| npz_root_path := root_path; npz_mode := mode; contents := file;
       f := Some true; unpickled := [] |}.

(** The store with [key] bound to [entry] in [self.contents]. *)
Definition with_entry (key : string) (entry : gmap string (list Z))
    (self : NpzIOStore) : NpzIOStore :=
  {| npz_root_path := npz_root_path self; npz_mode := npz_mode self;
     contents := <[ key := entry ]> (contents self);
     f := f self; unpickled := unpickled self |}.

(** The store after NumPy has read the entry [key] from the file. *)
Definition having_read (key : string) (self : NpzIOStore) : NpzIOStore :=
  {| npz_root_path := npz_root_path self; npz_mode := npz_mode self;
     contents := contents self; f := f self;
     unpickled := unpickled self ++ [key] |}.

(** The store after [self.f.close()]. *)
Definition released (self : NpzIOStore) : NpzIOStore :=
  {| npz_root_path := npz_root_path self; npz_mode := npz_mode self;
     contents := contents self; f := Some false;
     unpickled := unpickled self |}.

(** [NpzIOStore.make] *)
Definition NpzIOStore_make (self : NpzIOStore) (path : string)
    : NpzIOStore :=
  if bool_decide (path = "") then with_entry "__root__" ∅ self
  else with_entry path ∅ self.

Inductive npz_handle :=
  | NpzDict (entry : gmap string (list Z))     (* [dict(entry)] *)
  | NpzToList (entry : gmap string (list Z))   (* [entry.tolist()] *)
  | NpzNothing.                                (* the empty dict [{}] *)

(** [self.contents[key]] for a [key] that [self.contents] holds with
    [entry]: the dict gives it; the [NpzFile] reads it from the file, which
    has to be open. *)
Definition npz_getitem (self : NpzIOStore) (key : string)
    (entry : gmap string (list Z))
    : result (gmap string (list Z)) * NpzIOStore :=
  if bool_decide (npz_mode self = "w") then (Ok entry, self)
  else if bool_decide (f self = Some true) then
    (Ok entry, having_read key self)
  else (Raise (Failure "NpzFile.__getitem__"), self).

(** [NpzIOStore.get] *)
Definition NpzIOStore_get (self : NpzIOStore) (path : string)
    : result npz_handle * NpzIOStore :=
  if bool_decide (path = "") then
    match contents self !! "__root__" with
    | Some entry =>
        let '(r, self) := npz_getitem self "__root__" entry in
        (NpzDict <$> r, self)
    | None => (Ok NpzNothing, self)
    end
  else
    match contents self !! path with
    | Some entry =>
        let '(r, self) := npz_getitem self path entry in
        (if bool_decide (npz_mode self = "w")
         then Raise (AttributeError "tolist") else NpzToList <$> r,
         self)
    | None => (Ok NpzNothing, self)
    end.

(** [NpzIOStore.close]: the store after it, and what [np.savez] wrote. *)
Definition NpzIOStore_close (self : NpzIOStore)
    : NpzIOStore * option (gmap string (gmap string (list Z))) :=
  (released self,
   if bool_decide (npz_mode self = "w") then Some (contents self) else None).

(** The weights of one layer, as [save_model] with ["npz"] files them. *)
Definition npz_of_one_layer : gmap string (gmap string (list Z)) :=
  {[ "dense" := {[ "0" := [1; 2]%Z ]} ]}.

(** A weights file with one layer under [dense] and nothing at the root,
    as the files of the older HDF5 format are. *)
Definition h5_without_root_vars : H5IOStore :=
  {| h5_root_path := "legacy.weights.h5";
     h5_mode := "r";
     h5_file :=
       H5Group
         [ ("dense",
            H5Group [ ("vars", H5Group [ ("0", H5Dataset [1; 2]%Z) ]) ]);
           ("dropout", H5Group []) ] |}.

(** ** The disk store

    A directory tree, and the temporary directories of the process by
    name. *)
Inductive fsnode :=
  | File
  | Dir (entries : list (string * fsnode)).

Record files := Files {
  tmp : gmap string fsnode;   (* the directories made by [tempfile.mkdtemp] *)
  made : nat                  (* how many of them were made so far *)
}.

(** A zip archive open for writing: its member names, and the member
    names at which [ZipFile.write] fails (an unreadable file, a full
    disk). *)
Record zip := Zip {
  members : list string;
  refuses : list string
}.

(** [zipfile_to_save.write(system_path, zip_path)]: the outcome, and the
    archive after it. *)
Definition zip_write (zf : zip) (zip_path : string) : result unit * zip :=
  if bool_decide (zip_path ∈ refuses zf)
  then (Raise (Failure "ZipFile.write"), zf)
  else (Ok (), Zip (members zf ++ [zip_path]) (refuses zf)).

(** [_write_to_zip_recursively]; [node] is what lies at [system_path].
    The archive keeps what was written into it before an exception. *)
Fixpoint _write_to_zip_recursively (join : string → string → string)
    (zipfile_to_save : zip) (node : fsnode) (zip_path : string)
    : result unit * zip :=
  match node with
  | File => zip_write zipfile_to_save zip_path
  | Dir entries =>
      (fix listdir (zf : zip) (entries : list (string * fsnode)) :=
         match entries with
         | [] => (Ok (), zf)
         | (file_name, child) :: rest =>
             match _write_to_zip_recursively join zf child
                     (join zip_path file_name) with
             | (Ok _, zf) => listdir zf rest
             | (Raise x, zf) => (Raise x, zf)
             end
         end) zipfile_to_save entries
  end.

Record DiskIOStore := {
  disk_mode : option string;
  disk_root_path : string;
  disk_archive : option zip;
  tmp_dir : option string;
  working_dir : string
}.

(** [_get_temp_dir]: a fresh, empty directory. *)
Definition _get_temp_dir (fs : files) : string * files :=
  let temp_dir := "/tmp/tmp" +:+ pretty (made fs) in
  (temp_dir, Files (<[ temp_dir := Dir [] ]> (tmp fs)) (S (made fs))).

(** [DiskIOStore.__init__].  [extracted] is the tree that
    [archive.extract(root_path, path=self.tmp_dir)] leaves in the
    temporary directory in read mode. *)
Definition DiskIOStore_init (root_path : string) (archive : option zip)
    (mode : option string) (extracted : fsnode) (fs : files)
    : DiskIOStore * files :=
  match archive with
  | Some _ =>
      let '(t, fs) := _get_temp_dir fs in
      let fs := if bool_decide (mode = Some "r")
                then Files (<[ t := extracted ]> (tmp fs)) (made fs)
                else fs in
      ({| disk_mode := mode; disk_root_path := root_path;
          disk_archive := archive; tmp_dir := Some t; working_dir := t |},
       fs)
  | None =>
      if bool_decide (mode = Some "r") then
        ({| disk_mode := mode; disk_root_path := root_path;
            disk_archive := archive; tmp_dir := None;
            working_dir := root_path |}, fs)
      else
        let '(t, fs) := _get_temp_dir fs in
        ({| disk_mode := mode; disk_root_path := root_path;
            disk_archive := archive; tmp_dir := Some t; working_dir := t |},
         fs)
  end.

(** [DiskIOStore.close]: the outcome, the archive and the files after it. *)
Definition DiskIOStore_close (join : string → string → string)
    (self : DiskIOStore) (fs : files) : result unit * option zip * files :=
  let '(copied, archive) :=
    if bool_decide (disk_mode self = Some "w") then
      match disk_archive self with
      | Some zf =>
          match tmp_dir self ≫= λ t, tmp fs !! t with
          | Some node =>
              let '(r, zf) :=
                _write_to_zip_recursively join zf node (disk_root_path self)
              in (r, Some zf)
          | None => (Raise (Failure "ZipFile.write"), Some zf)
          end
      | None => (Ok (), None)
      end
    else (Ok (), disk_archive self) in
  match copied with
  | Raise x => (Raise x, archive, fs)
  | Ok _ =>
      match tmp_dir self with
      | Some t =>
          if bool_decide (is_Some (tmp fs !! t))
          then (Ok (), archive, Files (delete t (tmp fs)) (made fs))
          else (Ok (), archive, fs)
      | None => (Ok (), archive, fs)
      end
  end.

(** The asset store of [save_model] when it has just been made, and the
    files then. *)
Definition unstaged : DiskIOStore * files :=
  DiskIOStore_init "assets" (Some (Zip ["metadata.json"; "config.json"] []))
    (Some "w") (Dir []) (Files ∅ 0).

(** An asset store of [save_model], after two layers have staged a file
    each, bound to an archive that will not take the second file. *)
Definition staged : DiskIOStore * files :=
  let zf := Zip ["metadata.json"; "config.json"] ["assets/b/vocab.txt"] in
  let '(store, fs) :=
    DiskIOStore_init "assets" (Some zf) (Some "w") (Dir []) (Files ∅ 0) in
  (store,
   Files (<[ "/tmp/tmp0" := Dir [ ("a", Dir [ ("vocab.txt", File) ]);
                                  ("b", Dir [ ("vocab.txt", File) ]) ] ]>
            (tmp fs))
         (made fs)).

(** ** The top-level operations *)

Definition _CONFIG_FILENAME : string := "config.json".
Definition _METADATA_FILENAME : string := "metadata.json".
Definition _VARS_FNAME : string := "variables.weights".
Definition _ASSETS_DIRNAME : string := "assets".

(** What the operations act on: the thread-local [_SAVING_V3_ENABLED]
    ([None] while the thread has not set [value]), the zip archives on
    disk with the names of their members, the warnings issued, and the
    trace of the last walk. *)
Record world := World {
  _SAVING_V3_ENABLED : option bool;
  disk : gmap string (list string);
  warned : nat;
  walked : list event
}.

(** What the operations meet outside this module: whether [h5py] could be
    imported, and which of the collaborators they call raise. *)
Record env := Env {
  h5py : bool;
  raises : string → bool
}.

Record model := Model {
  graph : heap;
  root : nat;
  built : bool
}.

(** A computation on the world that returns or raises. *)
Definition op (A : Type) : Type := world → result A * world.

Definition op_ret {A} (a : A) : op A := λ w, (Ok a, w).

Definition op_bind {A B} (m : op A) (k : A → op B) : op B := λ w,
  match m w with
  | (Ok a, w) => k a w
  | (Raise x, w) => (Raise x, w)
  end.

Definition raise {A} (x : exn) : op A := λ w, (Raise x, w).

(** [try: m finally: fin] *)
Definition try_finally {A} (m : op A) (fin : op unit) : op A := λ w,
  let '(r, w) := m w in
  match fin w with
  | (Ok _, w) => (r, w)
  | (Raise x, w) => (Raise x, w)
  end.

Notation "'let*' x := m 'in' k" := (op_bind m (λ x, k))
  (at level 10, x name, m at level 100, k at level 200).
Notation "m ;; k" := (op_bind m (λ _, k))
  (at level 100, k at level 200, right associativity).

(** [getattr(_SAVING_V3_ENABLED, "value", False)] *)
Definition saving_v3_enabled (w : world) : bool :=
  default false (_SAVING_V3_ENABLED w).

Definition read_value : op bool := λ w, (Ok (saving_v3_enabled w), w).

Definition write_value (b : bool) : op unit := λ w,
  (Ok (), World (Some b) (disk w) (warned w) (walked w)).

Definition write_disk (d : gmap string (list string)) : op unit := λ w,
  (Ok (), World (_SAVING_V3_ENABLED w) d (warned w) (walked w)).

Definition read_disk : op (gmap string (list string)) := λ w, (Ok (disk w), w).

Section TopLevel.
Variable to_snake_case : string → string.
Variable join : string → string → string.
Variable e : env.
(** What [deserialize_keras_object] builds from the configuration. *)
Variable rebuilt : model.

(** A call on a collaborator. *)
Definition call (name : string) : op unit :=
  if raises e name then raise (Failure name) else op_ret ().

Definition warn : op unit :=
  call "warnings.warn" ;;
  λ w, (Ok (),
        World (_SAVING_V3_ENABLED w) (disk w) (S (warned w)) (walked w)).

(** [zipfile.ZipFile(filepath, "w")] makes the file, or empties it. *)
Definition zip_create (filepath : string) : op unit :=
  call "zipfile.ZipFile" ;;
  let* d := read_disk in
  write_disk (<[ filepath := [] ]> d).

(** [zipfile.ZipFile(filepath, "r")] *)
Definition zip_open (filepath : string) : op unit :=
  call "zipfile.ZipFile" ;;
  let* d := read_disk in
  if bool_decide (is_Some (d !! filepath)) then op_ret ()
  else raise (Failure "zipfile.ZipFile").

(** Writing one member: [zf.open(name, "w")] and [f.write], or
    [archive.writestr]. *)
Definition zip_add (filepath name : string) : op unit :=
  call "ZipFile.write" ;;
  let* d := read_disk in
  write_disk (<[ filepath := default [] (d !! filepath) ++ [name] ]> d).

(** [zf.open(name, "r")] and [f.read()] *)
Definition zip_read (filepath name : string) : op unit :=
  let* d := read_disk in
  if bool_decide (name ∈ default [] (d !! filepath)) then
    call "ZipFile.read"
  else raise (KeyError name).

(** [zf.namelist()] *)
Definition namelist (filepath : string) : op (list string) :=
  let* d := read_disk in op_ret (default [] (d !! filepath)).

(** [with zipfile.ZipFile(...) as zf: body] once the archive is open. *)
Definition closing_archive {A} (body : op A) : op A :=
  try_finally body (call "ZipFile.close").

(** [_save_state(model, ..., inner_path="", visited_trackables=set())] *)
Definition walk_save (m : model) (weights_store assets_store : bool)
    : op unit :=
  call "_save_state" ;;
  match _save_state to_snake_case join (graph m) weights_store assets_store
          (S (size (graph m))) (root m) "" fresh with
  | Some st =>
      λ w, (Ok (),
            World (_SAVING_V3_ENABLED w) (disk w) (warned w) (trace st))
  | None => raise (Failure "_save_state")
  end.

(** [_load_state(model, ..., inner_path="", visited_trackables=set())] *)
Definition walk_load (m : model) (weights_store assets_store : bool)
    : op unit :=
  call "_load_state" ;;
  match _load_state to_snake_case join (graph m) weights_store assets_store
          (S (size (graph m))) (root m) "" fresh with
  | Some st =>
      λ w, (Ok (),
            World (_SAVING_V3_ENABLED w) (disk w) (warned w) (trace st))
  | None => raise (Failure "_load_state")
  end.

Definition save_model (m : model) (filepath : string)
    (weights_format : string) : op unit :=
  if negb (endswith filepath ".keras") then
    raise (ValueError
             ("Invalid `filepath` argument: expected a `.keras` extension. "
              +:+ "Received: filepath=" +:+ filepath))
  else if bool_decide (weights_format = "h5") && negb (h5py e) then
    raise (ImportError "h5py must be installed in order to save a model.")
  else
    (if negb (built m) then warn else op_ret ()) ;;
    let* saving_v3_enabled_value := read_value in
    write_value true ;;
    call "serialize_keras_object" ;;
    call "json.dumps" ;;
    call "datetime.now" ;;
    call "json.dumps" ;;
    try_finally
      (zip_create filepath ;;
       closing_archive
         (zip_add filepath _METADATA_FILENAME ;;
          zip_add filepath _CONFIG_FILENAME ;;
          let* weights_member :=
            if bool_decide (weights_format = "h5") then
              call "H5IOStore" ;; op_ret (_VARS_FNAME +:+ ".h5")
            else if bool_decide (weights_format = "npz") then
              call "NpzIOStore" ;; op_ret (_VARS_FNAME +:+ ".npz")
            else
              raise (ValueError
                       ("Unknown `weights_format` argument. "
                        +:+ "Expected 'h5' or 'npz'. "
                        +:+ "Received: weights_format=" +:+ weights_format))
          in
          call "DiskIOStore" ;;
          walk_save m true true ;;
          call "weights_store.close" ;;
          zip_add filepath weights_member ;;
          call "asset_store.close"))
      (write_value saving_v3_enabled_value).

Definition load_model (filepath : string) (compile : bool) : op model :=
  if negb (endswith filepath ".keras") then
    raise (ValueError
             ("Invalid filename: expected a `.keras` extension. "
              +:+ "Received: filepath=" +:+ filepath))
  else
    let* saving_v3_enabled_value := read_value in
    write_value true ;;
    try_finally
      (zip_open filepath ;;
       closing_archive
         (zip_read filepath _CONFIG_FILENAME ;;
          call "json.loads" ;;
          (if negb compile then call "config_dict.__setitem__"
           else op_ret ()) ;;
          call "deserialize_keras_object" ;;
          let m := rebuilt in
          let* all_filenames := namelist filepath in
          (if bool_decide (_VARS_FNAME +:+ ".h5" ∈ all_filenames) then
             call "H5IOStore"
           else if bool_decide (_VARS_FNAME +:+ ".npz" ∈ all_filenames) then
             call "NpzIOStore"
           else
             raise (ValueError
                      ("Expected a " +:+ _VARS_FNAME +:+ ".h5 or "
                       +:+ _VARS_FNAME +:+ ".npz file."))) ;;
          let asset_store :=
            bool_decide (_ASSETS_DIRNAME ∈ all_filenames) in
          (if asset_store then call "DiskIOStore" else op_ret ()) ;;
          walk_load m true asset_store ;;
          call "weights_store.close" ;;
          (if asset_store then call "asset_store.close" else op_ret ()) ;;
          op_ret m))
      (write_value saving_v3_enabled_value).

Definition save_weights_only (m : model) (filepath : string) : op unit :=
  if negb (endswith filepath ".weights.h5") then
    raise (ValueError
             ("Invalid `filepath` argument: "
              +:+ "expected a `.weights.h5` extension. "
              +:+ "Received: filepath=" +:+ filepath))
  else
    call "H5IOStore" ;;
    walk_save m true false ;;
    call "weights_store.close".

Definition load_weights_only (m : model) (filepath : string) : op unit :=
  let* archive :=
    if endswith filepath ".weights.h5" then
      call "H5IOStore" ;; op_ret false
    else if endswith filepath ".keras" then
      zip_open filepath ;; call "H5IOStore" ;; op_ret true
    else raise (UnboundLocalError "weights_store") in
  walk_load m true false ;;
  call "weights_store.close" ;;
  if archive then call "ZipFile.close" else op_ret ().
End TopLevel.

(** A world in which nothing has been saved, and the flag is off. *)
Definition quiet : world := World (Some false) ∅ 0 [].

(** Collaborators that all return, with [h5py] installed. *)
Definition obliging : env := Env true (λ _, false).

(** A model whose configuration cannot be serialized, as that of a
    subclassed model without [get_config] cannot. *)
Definition unserializable : env :=
  Env true (λ c, bool_decide (c = "serialize_keras_object")).

Definition shared_model : model := Model shared_graph 0 true.
Definition rebuilt_model : model := Model shared_graph_rebuilt 10 true.

(** ** More of the HDF5 store *)

(** The members with [name] bound to [o], in the place of its binding when
    it has one and at the end otherwise. *)
Fixpoint rebind {A} (name : string) (o : A) (l : list (string * A))
    : list (string * A) :=
  match l with
  | [] => [(name, o)]
  | (k, v) :: l' =>
      if bool_decide (k = name) then (k, o) :: l' else (k, v) :: rebind name o l'
  end.

(** [o.create_group(name)] of [h5py], in a file that is open for writing
    as that of a store in write mode is: it makes the groups on the way
    that are missing, and raises [ValueError] when the name is there
    already, or leads through a dataset. *)
Fixpoint h5_create (o : h5obj) (cs : list string) : result h5obj :=
  match o with
  | H5Dataset _ => Raise (ValueError "Unable to create group")
  | H5Group members =>
      match cs with
      | [] => Raise (ValueError "Unable to create group")
      | [c] =>
          match assoc c members with
          | Some _ => Raise (ValueError "Unable to create group")
          | None => Ok (H5Group (rebind c (H5Group []) members))
          end
      | c :: cs =>
          child ← h5_create (default (H5Group []) (assoc c members)) cs;
          Ok (H5Group (rebind c child members))
      end
  end.

Definition h5_create_group (o : h5obj) (name : string) : result h5obj :=
  h5_create o (components name).

(** [H5IOStore.make]: the store after it.  What the method returns is the
    ["vars"] group that it has made, which [get] finds at the path. *)
Definition H5IOStore_make (self : H5IOStore) (path : string)
    : result H5IOStore :=
  if bool_decide (path = "") then
    file ← h5_create_group (h5_file self) "vars";
    Ok {| h5_root_path := h5_root_path self; h5_mode := h5_mode self;
          h5_file := file |}
  else
    file ← h5_create_group (h5_file self) path;
    file ← h5_create file (components path ++ components "vars");
    Ok {| h5_root_path := h5_root_path self; h5_mode := h5_mode self;
          h5_file := file |}.

(** A file that [save_weights_only] could be writing: the root and one
    layer have their locations. *)
Definition h5_being_written : H5IOStore :=
  {| h5_root_path := "model.weights.h5";
     h5_mode := "w";
     h5_file :=
       H5Group
         [ ("vars", H5Group []);
           ("dense", H5Group [ ("vars", H5Group [ ("0", H5Dataset [1; 2]%Z) ]) ]) ] |}.

(** Where the variables of [path] lie in the file: the components of the
    ["vars"] group that [make] makes and [get] looks for. *)
Definition h5_location (path : string) : list string :=
  if bool_decide (path = "") then components "vars"
  else components path ++ components "vars".

(** ** More of the disk store *)

(** What lies at the components [cs] below a directory. *)
Fixpoint fs_lookup (node : fsnode) (cs : list string) : option fsnode :=
  match cs with
  | [] => Some node
  | c :: cs =>
      match node with
      | Dir entries => child ← assoc c entries; fs_lookup child cs
      | File => None
      end
  end.

(** [tf.io.gfile.makedirs]: it makes the directories on the way that are
    missing, and raises when a file is in the way. *)
Fixpoint fs_makedirs (node : fsnode) (cs : list string) : result fsnode :=
  match node with
  | File => Raise (Failure "tf.io.gfile.makedirs")
  | Dir entries =>
      match cs with
      | [] => Ok node
      | c :: cs =>
          child ← fs_makedirs (default (Dir []) (assoc c entries)) cs;
          Ok (Dir (rebind c child entries))
      end
  end.

(** [tf.io.gfile.exists(tf.io.gfile.join(self.tmp_dir, path))], for a
    [path] that is relative, as the paths of the walker are. *)
Definition staged_at (fs : files) (t : string) (path : string) : bool :=
  bool_decide (is_Some (tmp fs !! t ≫= λ node,
                          fs_lookup node (components path))).

(** [DiskIOStore.make]: what it returns ([None] is Python's), and the
    files after it. *)
Definition DiskIOStore_make (join : string → string → string)
    (self : DiskIOStore) (path : string) (fs : files)
    : result (option string) * files :=
  if bool_decide (path = "") then (Ok (tmp_dir self), fs)
  else
    match tmp_dir self with
    | None => (Raise (Failure "tf.io.gfile.join"), fs)
    | Some t =>
        if staged_at fs t path then (Ok (Some (join t path)), fs)
        else
          match fs_makedirs (default (Dir []) (tmp fs !! t))
                  (components path) with
          | Ok node =>
              (Ok (Some (join t path)),
               Files (<[ t := node ]> (tmp fs)) (made fs))
          | Raise x => (Raise x, fs)
          end
    end.

(** [DiskIOStore.get] *)
Definition DiskIOStore_get (join : string → string → string)
    (self : DiskIOStore) (path : string) (fs : files)
    : result (option string) :=
  if bool_decide (path = "") then Ok (tmp_dir self)
  else
    match tmp_dir self with
    | None => Raise (Failure "tf.io.gfile.join")
    | Some t =>
        if staged_at fs t path then Ok (Some (join t path)) else Ok None
    end.

(** The files of a tree, by the names that they get in the archive when
    the tree goes in under [zip_path]. *)
Fixpoint file_paths (join : string → string → string) (node : fsnode)
    (zip_path : string) : list string :=
  match node with
  | File => [zip_path]
  | Dir entries =>
      (fix below (entries : list (string * fsnode)) :=
         match entries with
         | [] => []
         | (file_name, child) :: rest =>
             file_paths join child (join zip_path file_name) ++ below rest
         end) entries
  end.

(** Writing the listed files one after the other, up to the first that
    the archive refuses. *)
Fixpoint zip_write_all (zf : zip) (zip_paths : list string)
    : result unit * zip :=
  match zip_paths with
  | [] => (Ok (), zf)
  | zip_path :: rest =>
      match zip_write zf zip_path with
      | (Ok _, zf) => zip_write_all zf rest
      | (Raise x, zf) => (Raise x, zf)
      end
  end.

(** Induction on a tree, with the entries of a directory in hand. *)
Definition fsnode_nested_ind (P : fsnode → Prop) (HFile : P File)
    (HDir : ∀ entries, Forall (λ e, P e.2) entries → P (Dir entries))
    : ∀ node, P node :=
  fix go node :=
    match node with
    | File => HFile
    | Dir entries =>
        HDir entries
          ((fix all (es : list (string * fsnode)) : Forall (λ e, P e.2) es :=
              match es with
              | [] => @List.Forall_nil _ _
              | e :: es' => @List.Forall_cons _ _ e es' (go e.2) (all es')
              end) entries)
    end.

(** Whether a path lies below [zip_path], or is absolute. *)
Definition below (zip_path s : string) : bool :=
  String.prefix "/" s || String.prefix (zip_path +:+ "/") s.

(** ** The shape of a trace *)

(** What a node that is met first puts on the trace after the entry: its
    numeric hook, its asset hook, and the mark, in this order. *)
Definition first_visit (hv ha : string) (ws ast : bool) (o : obj) (i : nat)
    (p : string) : list event :=
  (if hasattr o hv && ws then [OwnVariables i p] else [])
  ++ (if hasattr o ha && ast then [OwnAssets i p] else [])
  ++ [Add i].

(** The traces that are made of whole entries, [V] being the visited set
    at their start: the entry of a node in the set stands alone; the entry
    of a node outside it is followed at once by the node's first visit,
    and the node is in the set from there on. *)
Inductive in_blocks (h : heap) (hv ha : string) (ws ast : bool)
    : gset nat → list event → Prop :=
  | blocks_nil V : in_blocks h hv ha ws ast V []
  | blocks_seen V i p tr :
      i ∈ V →
      in_blocks h hv ha ws ast V tr →
      in_blocks h hv ha ws ast V (Call i p :: tr)
  | blocks_new V i p o tr :
      i ∉ V → h !! i = Some o →
      in_blocks h hv ha ws ast ({[ i ]} ∪ V) tr →
      in_blocks h hv ha ws ast V
        (Call i p :: first_visit hv ha ws ast o i p ++ tr).

(** From [st] to [st'] the trace has grown by whole entries. *)
Definition by_blocks (h : heap) (hv ha : string) (ws ast : bool)
    (st st' : wstate) : Prop :=
  ∃ d, trace st' = trace st ++ d
       ∧ in_blocks h hv ha ws ast (visited_trackables st) d
       ∧ visited_trackables st'
         = list_to_set (adds d) ∪ visited_trackables st.

(** The name of an element whose type-derived name [base] was met [k]
    times before it. *)
Definition name_after (base : string) (k : nat) : string :=
  match k with
  | 0 => base
  | S k => base +:+ "_" +:+ pretty (S k)
  end.

(** ** What an operation leaves alone *)

(** The archives and the warnings are those of [w]. *)
Definition same_files (w w' : world) : Prop :=
  disk w' = disk w ∧ warned w' = warned w.

(** The flag is that of [w]. *)
Definition same_flag (w w' : world) : Prop :=
  _SAVING_V3_ENABLED w' = _SAVING_V3_ENABLED w.

(** [m] keeps [R], however it ends. *)
Definition keeps {A} (R : relation world) (m : op A) : Prop :=
  ∀ w, R w (m w).2.

(** An archive that [save_model] left behind when it was given a weights
    format that it does not know. *)
Definition half_saved : world :=
  World (Some false) {[ "model.keras" := ["metadata.json"; "config.json"] ]}
    0 [].

(** The world after [shared_model] has been saved. *)
Definition saved : world :=
  (save_model one_word posix_join obliging shared_model "model.keras" "h5"
     quiet).2.

(** * Properties of the walker *)

(** ** Reading a trace that has grown *)

Lemma adds_app tr1 tr2 : adds (tr1 ++ tr2) = adds tr1 ++ adds tr2.
Proof. apply omap_app. Qed.

Lemma call_paths_app id tr1 tr2 :
  call_paths id (tr1 ++ tr2) = call_paths id tr1 ++ call_paths id tr2.
Proof. apply omap_app. Qed.

Lemma variables_paths_app id tr1 tr2 :
  variables_paths id (tr1 ++ tr2)
  = variables_paths id tr1 ++ variables_paths id tr2.
Proof. apply omap_app. Qed.

Lemma assets_paths_app id tr1 tr2 :
  assets_paths id (tr1 ++ tr2) = assets_paths id tr1 ++ assets_paths id tr2.
Proof. apply omap_app. Qed.

Lemma first_call_app id tr1 tr2 p :
  first_call id tr1 = Some p → first_call id (tr1 ++ tr2) = Some p.
Proof.
  unfold first_call. rewrite call_paths_app.
  destruct (call_paths id tr1); simpl; congruence.
Qed.

(** ** Lifting a fact from one entry to the whole walk *)

(** [H] says that a step followed by the rest of a loop returns: name the
    state after the step [st1], and what the step returned [E]. *)
Ltac after_step H st1 E :=
  lazymatch type of H with
  | ?m ≫= _ = Some _ => destruct m as [st1|] eqn:E; simpl in H; [|done]
  end.

Section WalkFacts.
Context (to_snake_case : string → string) (join : string → string → string).
Context (h : heap) (hv ha : string) (ws ast : bool).

Local Abbreviation walk_ := (walk to_snake_case join h hv ha ws ast).
Local Abbreviation enter_ := (enter hv ha ws ast).
Local Abbreviation children_ := (walk_children to_snake_case join h).
Local Abbreviation container_ := (walk_container_loop to_snake_case join h).
Local Abbreviation consistent_ := (consistent h hv ha ws ast).
Local Abbreviation keeps_consistent_ := (keeps_consistent h hv ha ws ast).
Local Abbreviation unvisited_ := (unvisited h).
Local Abbreviation returns_below_ := (returns_below h).
Local Abbreviation refs_live_ := (refs_live h).
Local Abbreviation settled_ := (settled h).
Local Abbreviation settles_ := (settles h).
Local Abbreviation visits_once_ := (visits_once h hv ha ws ast).
Local Abbreviation within_ := (within h).
Local Abbreviation stays_within_ := (stays_within h).

Section Lift.
Context (R : relation wstate) `{!PreOrder R}.

Lemma container_lift rec :
  (∀ i p st st', rec i p st = Some st' → R st st') →
  ∀ l p used st st', container_ rec l p used st = Some st' → R st st'.
Proof.
  intros Hrec l p. induction l as [|[r|] l IH]; intros used st st' Hl;
    simpl in Hl.
  - injection Hl as <-. reflexivity.
  - destruct (used !! _); simpl in Hl;
      after_step Hl st1 E;
      (etrans; [eapply Hrec, E | eapply IH, Hl]).
  - eauto.
Qed.

Lemma children_lift rec :
  (∀ i p st st', rec i p st = Some st' → R st st') →
  ∀ l p st st', children_ rec l p st = Some st' → R st st'.
Proof.
  intros Hrec l p. induction l as [|[a v] l IH]; intros st st' Hl;
    simpl in Hl.
  - injection Hl as <-. reflexivity.
  - destruct (_ || _); [eauto|].
    destruct v as [c|elts| |]; [| |eauto..].
    + after_step Hl st1 E.
      etrans; [eapply Hrec, E | eapply IH, Hl].
    + after_step Hl st1 E.
      etrans; [eapply container_lift, E; done | eapply IH, Hl].
Qed.

Lemma walk_lift :
  (∀ i p st, i ∈ visited_trackables st → R st (emit (Call i p) st)) →
  (∀ i p o st, i ∉ visited_trackables st → h !! i = Some o →
               R st (enter_ o i p (emit (Call i p) st))) →
  ∀ fuel i p st st', walk_ fuel i p st = Some st' → R st st'.
Proof.
  intros Hseen Hnew fuel.
  induction fuel as [|fuel IH]; intros i p st st' Hw; [done|].
  simpl in Hw. case_bool_decide as Hin.
  - injection Hw as <-. by apply Hseen.
  - destruct (h !! i) as [o|] eqn:Ho; simpl in Hw; [|done].
    etrans; [by apply (Hnew i p o)|].
    eapply children_lift, Hw. apply IH.
Qed.
End Lift.

(** *** The visited set and the trace only grow *)


#[local] Instance grows_preorder : PreOrder grows.
Proof.
  split.
  - intros st. split; [done|]. exists []. by rewrite app_nil_r.
  - intros s1 s2 s3 [H1 [d1 E1]] [H2 [d2 E2]]. split; [set_solver|].
    exists (d1 ++ d2). by rewrite E2, E1, app_assoc.
Qed.

Lemma enter_visited o i p st :
  visited_trackables (enter_ o i p st) = {[ i ]} ∪ visited_trackables st.
Proof. unfold enter. by do 2 destruct (_ && _). Qed.

Lemma enter_trace o i p st :
  trace (enter_ o i p st)
  = trace st
    ++ (if hasattr o hv && ws then [OwnVariables i p] else [])
    ++ (if hasattr o ha && ast then [OwnAssets i p] else [])
    ++ [Add i].
Proof.
  unfold enter. do 2 destruct (_ && _); simpl;
    rewrite <- ?app_assoc; simpl; by rewrite ?app_nil_r.
Qed.

Lemma walk_grows fuel i p st st' :
  walk_ fuel i p st = Some st' → grows st st'.
Proof.
  apply (walk_lift grows).
  - intros; split; simpl; [done|eauto].
  - intros ? ? o ? _ _. split.
    + rewrite enter_visited. simpl. set_solver.
    + rewrite enter_trace. simpl. rewrite <- app_assoc. eauto.
Qed.

(** *** What is known of a node inside and outside the visited set *)



#[local] Instance keeps_consistent_preorder : PreOrder keeps_consistent_.
Proof. split; unfold keeps_consistent_; [by intros ?|intros ???; eauto]. Qed.

Lemma consistent_fresh : consistent_ fresh.
Proof. split; simpl; [done|constructor|set_solver|done]. Qed.

Lemma consistent_seen i p st :
  i ∈ visited_trackables st → consistent_ st →
  consistent_ (emit (Call i p) st).
Proof.
  intros Hi [Hset Hnd Hin Hout]. split; simpl.
  - by rewrite adds_app, app_nil_r.
  - by rewrite adds_app, app_nil_r.
  - intros id Hid. destruct (Hin id Hid) as (o & q & Ho & Hq & Hv & Ha).
    exists o, q. split; [done|]. split; [by apply first_call_app|].
    by rewrite variables_paths_app, assets_paths_app, !app_nil_r.
  - intros id Hid. destruct (Hout id Hid) as (Hc & Hv & Ha).
    rewrite call_paths_app, variables_paths_app, assets_paths_app.
    rewrite Hc, Hv, Ha. simpl. case_decide; [|done]. by subst.
Qed.

Lemma consistent_new i p o st :
  i ∉ visited_trackables st → h !! i = Some o → consistent_ st →
  consistent_ (enter_ o i p (emit (Call i p) st)).
Proof.
  intros Hi Ho [Hset Hnd Hin Hout].
  assert (Hadds : adds (trace (enter_ o i p (emit (Call i p) st)))
                  = adds (trace st) ++ [i]).
  { rewrite enter_trace. simpl. rewrite !adds_app. simpl.
    do 2 destruct (_ && _); simpl; by rewrite ?app_nil_r. }
  split.
  - rewrite Hadds, enter_visited. simpl. rewrite Hset.
    rewrite list_to_set_app_L. simpl. set_solver.
  - rewrite Hadds. apply NoDup_app. split; [done|]. split.
    + intros x Hx ->%list_elem_of_singleton. apply Hi. rewrite Hset.
      by apply elem_of_list_to_set.
    + apply NoDup_singleton.
  - intros id. rewrite enter_visited, enter_trace. simpl.
    intros Hid. destruct (decide (id = i)) as [->|Hne].
    + destruct (Hout i Hi) as (Hc & Hv & Ha). exists o, p.
      split; [done|]. unfold first_call.
      rewrite !call_paths_app, !variables_paths_app, !assets_paths_app.
      rewrite Hc, Hv, Ha. simpl. rewrite decide_True by done.
      do 2 destruct (_ && _); simpl; rewrite ?decide_True by done; done.
    + assert (Hid' : id ∈ visited_trackables st) by set_solver.
      destruct (Hin id Hid') as (o' & q & Ho' & Hq & Hv & Ha).
      exists o', q. split; [done|].
      rewrite !variables_paths_app, !assets_paths_app, Hv, Ha.
      split; [by do 2 apply first_call_app|].
      simpl. destruct (hasattr o hv && ws), (hasattr o ha && ast); simpl;
        rewrite ?decide_False by done; by rewrite ?app_nil_r.
  - intros id. rewrite enter_visited, enter_trace. simpl. intros Hid.
    assert (Hne : i ≠ id) by set_solver.
    assert (Hid' : id ∉ visited_trackables st) by set_solver.
    destruct (Hout id Hid') as (Hc & Hv & Ha).
    rewrite !call_paths_app, !variables_paths_app, !assets_paths_app.
    rewrite Hc, Hv, Ha. simpl.
    do 2 destruct (_ && _); simpl; rewrite ?decide_False by done; done.
Qed.

Lemma walk_consistent fuel i p st st' :
  walk_ fuel i p st = Some st' → consistent_ st → consistent_ st'.
Proof.
  apply (walk_lift keeps_consistent_).
  - intros ? ? ? ? ?. by apply consistent_seen.
  - intros ? ? ? ? ? ? ?. by apply consistent_new.
Qed.

(** *** More fuel does not change a result *)


Lemma container_rec_le rec1 rec2 :
  rec_le rec1 rec2 →
  ∀ l p used st st',
    container_ rec1 l p used st = Some st' →
    container_ rec2 l p used st = Some st'.
Proof.
  intros Hle l p. induction l as [|[r|] l IH]; intros used st st' Hl;
    simpl in *; [done| |eauto].
  destruct (used !! _); simpl in *;
    after_step Hl st1 E;
    rewrite (Hle _ _ _ _ E); simpl; eauto.
Qed.

Lemma children_rec_le rec1 rec2 :
  rec_le rec1 rec2 →
  ∀ l p st st',
    children_ rec1 l p st = Some st' → children_ rec2 l p st = Some st'.
Proof.
  intros Hle l p. induction l as [|[a v] l IH]; intros st st' Hl;
    simpl in *; [done|].
  destruct (_ || _); [eauto|].
  destruct v as [c|elts| |]; [| |eauto..].
  - after_step Hl st1 E.
    rewrite (Hle _ _ _ _ E); simpl; eauto.
  - after_step Hl st1 E.
    rewrite (container_rec_le _ _ Hle _ _ _ _ _ E); simpl; eauto.
Qed.

Lemma walk_fuel_S fuel : rec_le (walk_ fuel) (walk_ (S fuel)).
Proof.
  induction fuel as [|fuel IH]; intros i p st st' Hw; [done|].
  simpl in Hw. change (walk_ (S (S fuel)) i p st) with
    (let st := emit (Call i p) st in
     if bool_decide (i ∈ visited_trackables st) then Some st
     else o ← h !! i;
          children_ (walk_ (S fuel)) (attrs o) p (enter_ o i p st)).
  simpl. case_bool_decide; [done|].
  destruct (h !! i) as [o|]; simpl in *; [|done].
  by apply (children_rec_le _ _ IH).
Qed.

Lemma walk_fuel_mono fuel fuel' i p st st' :
  fuel ≤ fuel' → walk_ fuel i p st = Some st' →
  walk_ fuel' i p st = Some st'.
Proof.
  induction 1 as [|fuel' _ IH]; [done|].
  intros Hw. by apply walk_fuel_S, IH.
Qed.

(** *** The walk returns *)


Lemma unvisited_grows st st' : grows st st' → unvisited_ st' ≤ unvisited_ st.
Proof. intros [Hsub _]. unfold unvisited_. apply subseteq_size. set_solver. Qed.

Lemma unvisited_enter o i p st :
  is_Some (h !! i) → i ∉ visited_trackables st →
  unvisited_ (enter_ o i p (emit (Call i p) st)) < unvisited_ st.
Proof.
  intros Hi Hnot. unfold unvisited_. rewrite enter_visited. simpl.
  apply subset_size. apply elem_of_dom in Hi. set_solver.
Qed.


Lemma container_total fuel rec :
  returns_below_ fuel rec →
  ∀ l p used st,
    (∀ r, r ∈ elem_refs l → is_Some (h !! r)) →
    unvisited_ st < fuel →
    ∃ st', container_ rec l p used st = Some st' ∧ grows st st'.
Proof.
  intros Hrec l p. induction l as [|[r|] l IH]; intros used st Hl Hfuel;
    simpl.
  - eexists; split; [done|reflexivity].
  - assert (Hr : is_Some (h !! r)) by (apply Hl; simpl; left).
    assert (Hl' : ∀ r', r' ∈ elem_refs l → is_Some (h !! r'))
      by (intros; apply Hl; simpl; by right).
    destruct (used !! _); simpl.
    all: edestruct (Hrec r) as (st1 & -> & Hg1); [done..|]; simpl.
    all: edestruct IH with (st := st1) as (st' & -> & Hg');
      [exact Hl'|by eapply Nat.le_lt_trans; [apply unvisited_grows|]|].
    all: eexists; split; [done|by etrans].
  - apply IH; [|done]. intros; by apply Hl.
Qed.


Lemma refs_live_tail x l : refs_live_ (x :: l) → refs_live_ l.
Proof. intros Hl a v r Hin. apply Hl. by right. Qed.

Lemma children_total fuel rec :
  returns_below_ fuel rec →
  ∀ l p st, refs_live_ l → unvisited_ st < fuel →
            ∃ st', children_ rec l p st = Some st' ∧ grows st st'.
Proof.
  intros Hrec l p. induction l as [|[a v] l IH]; intros st Hl Hfuel; simpl.
  - eexists; split; [done|reflexivity].
  - pose proof (refs_live_tail _ _ Hl) as Hl'.
    pose proof (Hl a v) as Hav. unfold traversed in Hav.
    destruct (_ || _) eqn:Hskip; [by apply IH|].
    apply orb_false_elim in Hskip as [Hs1 Hs2].
    rewrite Hs1, Hs2 in Hav. simpl in Hav.
    destruct v as [c|elts| |]; [| |by apply IH..].
    + edestruct (Hrec c) as (st1 & -> & Hg1);
        [apply Hav; [left|done|simpl; left]|done|]; simpl.
      edestruct (IH st1 Hl') as (st' & -> & Hg');
        [by eapply Nat.le_lt_trans; [apply unvisited_grows|]|].
      eexists; split; [done|by etrans].
    + edestruct (container_total fuel rec Hrec elts) as (st1 & -> & Hg1);
        [intros r Hr; apply Hav; [left|done|exact Hr]|done|]; simpl.
      edestruct (IH st1 Hl') as (st' & -> & Hg');
        [by eapply Nat.le_lt_trans; [apply unvisited_grows|]|].
      eexists; split; [done|by etrans].
Qed.

Lemma heap_closed_edge a b :
  heap_closed h → edge h a b → is_Some (h !! b).
Proof.
  intros Hclosed (o & Ho & Hb). specialize (Hclosed a o Ho). simpl in Hclosed.
  by eapply Forall_forall in Hclosed.
Qed.

Lemma refs_live_attrs i o :
  heap_closed h → h !! i = Some o → refs_live_ (attrs o).
Proof.
  intros Hclosed Ho a v r Hin Htr Hr. apply (heap_closed_edge i r Hclosed).
  exists o. split; [done|]. unfold children.
  apply list_elem_of_In, in_flat_map. exists (a, v).
  split; [by apply list_elem_of_In|]. rewrite Htr. by apply list_elem_of_In.
Qed.

Lemma walk_total :
  heap_closed h → ∀ fuel, returns_below_ fuel (walk_ fuel).
Proof.
  intros Hclosed fuel. induction fuel as [|fuel IH]; intros i p st Hi Hfuel;
    [lia|].
  simpl. case_bool_decide as Hin.
  - eexists; split; [done|]. split; simpl; [done|eauto].
  - destruct Hi as [o Ho]. rewrite Ho. simpl.
    pose proof (unvisited_enter o i p st (mk_is_Some _ _ Ho) Hin) as Hlt.
    destruct (children_total fuel (walk_ fuel) IH (attrs o) p
                (enter_ o i p (emit (Call i p) st))) as
      (st' & Hst' & Hg); [by eapply refs_live_attrs|lia|].
    exists st'. split; [done|]. etrans; [|done]. split.
    + rewrite enter_visited. simpl. set_solver.
    + rewrite enter_trace. simpl. rewrite <- app_assoc. eauto.
Qed.

(** *** Every node within reach is visited *)




Lemma container_settles rec G :
  settles_ rec → rec_grows rec →
  ∀ l p used st st',
    container_ rec l p used st = Some st' → settled_ G st →
    settled_ G st' ∧ ∀ r, r ∈ elem_refs l → r ∈ visited_trackables st'.
Proof.
  intros Hrec Hgr l p. induction l as [|[r|] l IH]; intros used st st' Hl HG;
    simpl in Hl.
  - injection Hl as <-. split; [done|]. simpl. set_solver.
  - assert (∃ st1, rec r (join p (if used !! elem_name to_snake_case h r
               is Some c then elem_name to_snake_case h r +:+ "_"
                              +:+ pretty (S c)
               else elem_name to_snake_case h r)) st = Some st1
         ∧ ∃ used', container_ rec l p used' st1 = Some st')
      as (st1 & E1 & used' & E2).
    { destruct (used !! _); simpl in Hl;
        after_step Hl st1 E;
        eauto. }
    destruct (Hrec G _ _ _ _ E1 HG) as [HG1 Hr1].
    destruct (IH _ _ _ E2 HG1) as [HG' Hl'].
    split; [done|]. simpl. intros r' [->|Hr']%elem_of_cons; [|by auto].
    destruct (container_lift grows _ Hgr _ _ _ _ _ E2) as [Hsub _].
    by apply Hsub.
  - eauto.
Qed.

Lemma children_settles rec G :
  settles_ rec → rec_grows rec →
  ∀ l p st st',
    children_ rec l p st = Some st' → settled_ G st →
    settled_ G st'
    ∧ ∀ a v r, (a, v) ∈ l → traversed a v = true → r ∈ value_refs v →
               r ∈ visited_trackables st'.
Proof.
  intros Hrec Hgr l p. induction l as [|[a v] l IH]; intros st st' Hl HG;
    simpl in Hl.
  - injection Hl as <-. split; [done|]. intros ??? Hin. inversion Hin.
  - assert (Hgo : ∀ st1, children_ rec l p st1 = Some st' →
              settled_ G st1 →
              (∀ r, traversed a v = true → r ∈ value_refs v →
                    r ∈ visited_trackables st1) →
              settled_ G st'
              ∧ ∀ a' v' r, (a', v') ∈ (a, v) :: l →
                  traversed a' v' = true → r ∈ value_refs v' →
                  r ∈ visited_trackables st').
    { intros st1 E2 HG1 Hhead. destruct (IH _ _ E2 HG1) as [HG' Hl'].
      split; [done|]. intros a' v' r [[= -> ->]|Hin]%elem_of_cons; [|by eauto].
      intros Htr Hr.
      destruct (children_lift grows _ Hgr _ _ _ _ E2) as [Hsub _].
      by apply Hsub, Hhead. }
    unfold traversed in Hgo.
    destruct (_ || _) eqn:Hskip.
    { apply (Hgo st); [done..|]. intros r.
      apply orb_true_iff in Hskip as [->| ->]; simpl;
        rewrite ?andb_false_r; done. }
    destruct v as [c|elts| |].
    + after_step Hl st1 E.
      destruct (Hrec G _ _ _ _ E HG) as [HG1 Hc].
      apply (Hgo st1); [done..|]. simpl.
      by intros r _ ->%list_elem_of_singleton.
    + after_step Hl st1 E.
      destruct (container_settles rec G Hrec Hgr _ _ _ _ _ E HG)
        as [HG1 Hc].
      apply (Hgo st1); [done..|]. simpl. auto.
    + apply (Hgo st); [done..|]. simpl. set_solver.
    + apply (Hgo st); [done..|]. simpl. set_solver.
Qed.

Lemma settled_visited G st st' :
  visited_trackables st = visited_trackables st' →
  settled_ G st → settled_ G st'.
Proof. unfold settled_. intros <-. done. Qed.

Lemma walk_settles fuel : settles_ (walk_ fuel).
Proof.
  induction fuel as [|fuel IH]; intros G i p st st' Hw HG; [done|].
  pose proof (walk_grows _ _ _ _ _ Hw) as Hgrow.
  simpl in Hw. case_bool_decide as Hin.
  - injection Hw as <-. split; [|done]. by eapply settled_visited, HG.
  - destruct (h !! i) as [o|] eqn:Ho; simpl in Hw; [|done].
    destruct (children_settles (walk_ fuel) ({[ i ]} ∪ G) IH
                (walk_grows fuel) _ _ _ _ Hw) as [HG' Hkids].
    { intros a o' b. rewrite enter_visited. simpl. intros Ha Hna Ho' Hb.
      assert (a ∈ visited_trackables st) by set_solver.
      assert (a ∉ G) by set_solver.
      assert (b ∈ visited_trackables st) by eauto. set_solver. }
    assert (Hi : i ∈ visited_trackables st').
    { apply (children_lift grows _ (walk_grows fuel)) in Hw as [Hsub _].
      apply Hsub. rewrite enter_visited. set_solver. }
    split; [|done]. intros a o' b Ha Hna Ho' Hb.
    destruct (decide (a = i)) as [->|Hne].
    + assert (o' = o) as -> by congruence.
      unfold children in Hb.
      apply list_elem_of_In, in_flat_map in Hb as ([a' v'] & Hav & Hb).
      destruct (traversed a' v') eqn:Htr; [|inversion Hb].
      eapply Hkids; [by apply list_elem_of_In| done |by apply list_elem_of_In].
    + eapply HG'; [done| |done..]. set_solver.
Qed.

Lemma settled_reachable st root id :
  settled_ ∅ st → root ∈ visited_trackables st → reachable h root id →
  id ∈ visited_trackables st.
Proof.
  intros HG Hroot Hreach. induction Hreach as [|a b c (o & Ho & Hb) _ IH];
    [done|].
  apply IH. eapply HG; [done| |done..]. set_solver.
Qed.

(** *** No node out of reach is visited *)

Lemma container_within root rec :
  stays_within_ root rec →
  ∀ l p used st st',
    (∀ r, r ∈ elem_refs l → reachable h root r) → within_ root st →
    container_ rec l p used st = Some st' → within_ root st'.
Proof.
  intros Hrec l p. induction l as [|[r|] l IH]; intros used st st' Hl Hst Hrun;
    simpl in Hrun.
  - by injection Hrun as <-.
  - assert (Hr : reachable h root r) by (apply Hl; simpl; left).
    assert (Hl' : ∀ r', r' ∈ elem_refs l → reachable h root r')
      by (intros; apply Hl; simpl; by right).
    destruct (used !! _); simpl in Hrun; after_step Hrun st1 E;
      (eapply IH; [exact Hl'| |exact Hrun]); by eapply Hrec, E.
  - eapply IH; [|done..]. intros; by apply Hl.
Qed.

Lemma children_within root rec :
  stays_within_ root rec →
  ∀ l p st st',
    (∀ a v r, (a, v) ∈ l → traversed a v = true → r ∈ value_refs v →
              reachable h root r) →
    within_ root st →
    children_ rec l p st = Some st' → within_ root st'.
Proof.
  intros Hrec l p. induction l as [|[a v] l IH]; intros st st' Hl Hst Hrun;
    simpl in Hrun.
  - by injection Hrun as <-.
  - assert (Hl' : ∀ a' v' r, (a', v') ∈ l → traversed a' v' = true →
                    r ∈ value_refs v' → reachable h root r)
      by (intros a' v' r Hin; apply Hl; by right).
    pose proof (Hl a v) as Hav. unfold traversed in Hav.
    destruct (_ || _) eqn:Hskip; [by eapply IH|].
    apply orb_false_elim in Hskip as [Hs1 Hs2].
    rewrite Hs1, Hs2 in Hav. simpl in Hav.
    destruct v as [c|elts| |]; [| |by eapply IH..].
    + after_step Hrun st1 E. eapply IH; [exact Hl'| |exact Hrun].
      eapply Hrec, E; [|done]. apply Hav; [left|done|simpl; left].
    + after_step Hrun st1 E. eapply IH; [exact Hl'| |exact Hrun].
      eapply container_within, E; [done| |done].
      intros r Hr. apply Hav; [left|done|exact Hr].
Qed.

Lemma walk_within root fuel : stays_within_ root (walk_ fuel).
Proof.
  induction fuel as [|fuel IH]; intros i p st st' Hi Hst Hw; [done|].
  simpl in Hw. case_bool_decide as Hin.
  - by injection Hw as <-.
  - destruct (h !! i) as [o|] eqn:Ho; simpl in Hw; [|done].
    eapply children_within, Hw; [exact IH| |].
    + intros a v r Hav Htr Hr. eapply rtc_r; [exact Hi|].
      exists o. split; [done|]. unfold children.
      apply list_elem_of_In, in_flat_map. exists (a, v).
      split; [by apply list_elem_of_In|]. rewrite Htr.
      by apply list_elem_of_In.
    + intros id. rewrite enter_visited. simpl.
      intros [->%elem_of_singleton|Hid]%elem_of_union; [done|by apply Hst].
Qed.

(** *** One walk from the root, with nothing visited yet *)


Lemma walk_visits_once root :
  heap_closed h → is_Some (h !! root) →
  ∃ st, (∀ fuel, size h < fuel → walk_ fuel root "" fresh = Some st)
        ∧ visits_once_ root st.
Proof.
  intros Hclosed Hroot.
  destruct (walk_total Hclosed (S (size h)) root "" fresh Hroot)
    as (st & Hw & _).
  { unfold unvisited_. simpl. rewrite difference_empty_L, size_dom. lia. }
  exists st. split.
  { intros fuel Hfuel. eapply walk_fuel_mono, Hw. lia. }
  pose proof (walk_consistent _ _ _ _ _ Hw consistent_fresh)
    as [Hset Hnd Hin Hout].
  destruct (walk_settles _ ∅ _ _ _ _ Hw) as [HG Hr]; [by intros ? ? ? ?|].
  split; [done|]. split.
  { intros id. destruct (decide (id ∈ visited_trackables st)) as [Hid|Hid].
    - destruct (Hin id Hid) as (o & p & _ & _ & -> & ->).
      by do 2 destruct (_ && _); simpl; lia.
    - destruct (Hout id Hid) as (_ & -> & ->). simpl. lia. }
  split.
  { intros id Hid.
    eapply (walk_within root _ root "" fresh st);
      [by apply rtc_refl| |exact Hw|].
    - intros ? Hempty. simpl in Hempty. set_solver.
    - rewrite Hset. by apply elem_of_list_to_set. }
  intros id Hid.
  pose proof (settled_reachable _ _ _ HG Hr Hid) as Hv.
  split; [|by apply Hin].
  rewrite Hset in Hv. by apply elem_of_list_to_set in Hv.
Qed.
End WalkFacts.

(** ** The two walkers of the source are [walk] *)

Section SourceIsWalk.
Context (to_snake_case : string → string) (join : string → string → string).
Context (h : heap) (ws ast : bool).

Lemma save_container_loop_walk rec1 rec2 :
  (∀ i p st, rec1 i p st = rec2 i p st) →
  ∀ l p used st,
    save_container_loop to_snake_case join h rec1 l p used st
    = walk_container_loop to_snake_case join h rec2 l p used st.
Proof.
  intros Hrec l p. induction l as [|[r|] l IH]; intros used st; simpl;
    [done| |done].
  destruct (used !! _); simpl; rewrite Hrec;
    (destruct (rec2 r _ st); simpl; [apply IH|done]).
Qed.

Lemma load_container_loop_walk rec1 rec2 :
  (∀ i p st, rec1 i p st = rec2 i p st) →
  ∀ l p used st,
    load_container_loop to_snake_case join h rec1 l p used st
    = walk_container_loop to_snake_case join h rec2 l p used st.
Proof.
  intros Hrec l p. induction l as [|[r|] l IH]; intros used st; simpl;
    [done| |done].
  destruct (used !! _); simpl; rewrite Hrec;
    (destruct (rec2 r _ st); simpl; [apply IH|done]).
Qed.

Lemma save_children_walk rec1 rec2 :
  (∀ i p st, rec1 i p st = rec2 i p st) →
  ∀ l p st,
    save_children to_snake_case join h rec1 l p st
    = walk_children to_snake_case join h rec2 l p st.
Proof.
  intros Hrec l p. induction l as [|[a v] l IH]; intros st; simpl; [done|].
  destruct (_ || _); [done|]. destruct v as [c|elts| |]; [| |done..].
  - rewrite Hrec. destruct (rec2 c _ st); simpl; [apply IH|done].
  - unfold _save_container_state.
    rewrite (save_container_loop_walk rec1 rec2 Hrec).
    destruct (walk_container_loop _ _ _ _ _ _ _ _); simpl; [apply IH|done].
Qed.

Lemma load_children_walk rec1 rec2 :
  (∀ i p st, rec1 i p st = rec2 i p st) →
  ∀ l p st,
    load_children to_snake_case join h rec1 l p st
    = walk_children to_snake_case join h rec2 l p st.
Proof.
  intros Hrec l p. induction l as [|[a v] l IH]; intros st; simpl; [done|].
  destruct (_ || _); [done|]. destruct v as [c|elts| |]; [| |done..].
  - rewrite Hrec. destruct (rec2 c _ st); simpl; [apply IH|done].
  - unfold _load_container_state.
    rewrite (load_container_loop_walk rec1 rec2 Hrec).
    destruct (walk_container_loop _ _ _ _ _ _ _ _); simpl; [apply IH|done].
Qed.

Lemma save_state_walk fuel i p st :
  _save_state to_snake_case join h ws ast fuel i p st
  = walk to_snake_case join h "_save_own_variables" "_save_assets"
      ws ast fuel i p st.
Proof.
  revert i p st. induction fuel as [|fuel IH]; intros i p st; [done|].
  simpl. case_bool_decide; [done|]. destruct (h !! i) as [o|]; [|done].
  simpl. by apply save_children_walk.
Qed.

Lemma load_state_walk fuel i p st :
  _load_state to_snake_case join h ws ast fuel i p st
  = walk to_snake_case join h "_load_own_variables" "_load_assets"
      ws ast fuel i p st.
Proof.
  revert i p st. induction fuel as [|fuel IH]; intros i p st; [done|].
  simpl. case_bool_decide; [done|]. destruct (h !! i) as [o|]; [|done].
  simpl. by apply load_children_walk.
Qed.
End SourceIsWalk.

(** ** The names given inside a container *)

Lemma occurrences_snoc b earlier base :
  occurrences b (earlier ++ [base])
  = occurrences b earlier + (if decide (base = b) then 1 else 0).
Proof.
  unfold occurrences. rewrite filter_app, length_app. f_equal.
  rewrite filter_cons. simpl. by case_decide.
Qed.

Lemma counter_after_first earlier base (used : gmap string nat) :
  (∀ b, used !! b = counter_after earlier b) →
  used !! base = None →
  spec_name earlier base = base
  ∧ ∀ b, <[ base := 0 ]> used !! b = counter_after (earlier ++ [base]) b.
Proof.
  intros Hused Hnone. rewrite Hused in Hnone. unfold counter_after in Hnone.
  destruct (occurrences base earlier) as [|k] eqn:Hocc; [|done].
  split; [unfold spec_name; by rewrite Hocc|].
  intros b. unfold counter_after. rewrite occurrences_snoc.
  destruct (decide (base = b)) as [<-|Hne].
  - rewrite lookup_insert_eq, Hocc. done.
  - rewrite lookup_insert_ne, Hused by done. unfold counter_after.
    by rewrite Nat.add_0_r.
Qed.

Lemma counter_after_repeat earlier base (used : gmap string nat) c :
  (∀ b, used !! b = counter_after earlier b) →
  used !! base = Some c →
  spec_name earlier base = base +:+ "_" +:+ pretty (S c)
  ∧ ∀ b, <[ base := S c ]> used !! b = counter_after (earlier ++ [base]) b.
Proof.
  intros Hused Hsome. rewrite Hused in Hsome. unfold counter_after in Hsome.
  destruct (occurrences base earlier) as [|k] eqn:Hocc; [done|].
  injection Hsome as ->.
  split; [unfold spec_name; by rewrite Hocc|].
  intros b. unfold counter_after. rewrite occurrences_snoc.
  destruct (decide (base = b)) as [<-|Hne].
  - rewrite lookup_insert_eq, Hocc. simpl. by rewrite Nat.add_1_r.
  - rewrite lookup_insert_ne, Hused by done. unfold counter_after.
    by rewrite Nat.add_0_r.
Qed.

Section Naming.
Context (to_snake_case : string → string) (join : string → string → string).
Context (h : heap).

(** When [used_names] holds the counters of the names met so far, the
    loop enters the walker for the elements and under the names that the
    policy lists. *)
Lemma container_loop_policy rec l p earlier used st :
  (∀ b, used !! b = counter_after earlier b) →
  walk_container_loop to_snake_case join h rec l p used st
  = run_calls join rec p (spec_calls to_snake_case h earlier l) st.
Proof.
  revert earlier used st.
  induction l as [|[r|] l IH]; intros earlier used st Hused; simpl;
    [done| |by apply IH].
  destruct (used !! elem_name to_snake_case h r) as [c|] eqn:Hr; simpl.
  - destruct (counter_after_repeat _ _ _ _ Hused Hr) as [-> Hused'].
    destruct (rec r _ st); simpl; [by apply IH|done].
  - destruct (counter_after_first _ _ _ Hused Hr) as [-> Hused'].
    destruct (rec r _ st); simpl; [by apply IH|done].
Qed.

Lemma container_loop_skips rec l p used st :
  walk_container_loop to_snake_case join h rec (filter is_trackable l)
    p used st
  = walk_container_loop to_snake_case join h rec l p used st.
Proof.
  revert used st. induction l as [|[r|] l IH]; intros used st; [done| |].
  - rewrite filter_cons. simpl.
    destruct (used !! _); simpl; (destruct (rec r _ st); simpl; [|done]);
      apply IH.
  - rewrite filter_cons. simpl. apply IH.
Qed.
End Naming.

(** ** Attributes that the loop passes over *)

Lemma assoc_without_skipped {A} name (l : list (string * A)) :
  skipped_name name = false →
  assoc name (filter (λ '(child_attr, _), skipped_name child_attr = false) l)
  = assoc name l.
Proof.
  intros Hname. induction l as [|[k v] l IH]; [done|].
  rewrite filter_cons. simpl. destruct (decide (skipped_name k = false)).
  - simpl. by rewrite IH.
  - rewrite IH. case_bool_decide; [congruence|done].
Qed.

Lemma hasattr_without_skipped o name :
  skipped_name name = false → hasattr (without_skipped o) name = hasattr o name.
Proof.
  intros Hname. unfold hasattr, without_skipped. simpl.
  by rewrite assoc_without_skipped.
Qed.

Section Skipping.
Context (to_snake_case : string → string) (join : string → string → string).
Context (h : heap).

Lemma elem_name_without_skipped r :
  elem_name to_snake_case (heap_without_skipped h) r
  = elem_name to_snake_case h r.
Proof.
  unfold elem_name, heap_without_skipped. rewrite lookup_fmap.
  by destruct (h !! r).
Qed.

Lemma container_without_skipped rec1 rec2 :
  (∀ i p st, rec1 i p st = rec2 i p st) →
  ∀ l p used st,
    walk_container_loop to_snake_case join (heap_without_skipped h) rec1
      l p used st
    = walk_container_loop to_snake_case join h rec2 l p used st.
Proof.
  intros Hrec l p. induction l as [|[r|] l IH]; intros used st; simpl;
    [done| |done].
  rewrite elem_name_without_skipped.
  destruct (used !! _); simpl; rewrite Hrec;
    (destruct (rec2 r _ st); simpl; [apply IH|done]).
Qed.

Lemma children_without_skipped rec1 rec2 :
  (∀ i p st, rec1 i p st = rec2 i p st) →
  ∀ l p st,
    walk_children to_snake_case join (heap_without_skipped h) rec1
      (filter (λ '(child_attr, _), skipped_name child_attr = false) l) p st
    = walk_children to_snake_case join h rec2 l p st.
Proof.
  intros Hrec l p. induction l as [|[a v] l IH]; intros st; [done|].
  rewrite filter_cons. simpl. fold (skipped_name a).
  destruct (decide (skipped_name a = false)) as [Hkeep|Hskip].
  - simpl. fold (skipped_name a). rewrite Hkeep.
    destruct v as [c|elts| |]; [| |done..].
    + rewrite Hrec. destruct (rec2 c _ st); simpl; [apply IH|done].
    + rewrite (container_without_skipped rec1 rec2 Hrec).
      destruct (walk_container_loop _ _ _ _ _ _ _ _); simpl; [apply IH|done].
  - apply not_false_is_true in Hskip. rewrite Hskip. apply IH.
Qed.

Lemma walk_without_skipped hv ha ws ast fuel i p st :
  skipped_name hv = false → skipped_name ha = false →
  walk to_snake_case join (heap_without_skipped h) hv ha ws ast fuel i p st
  = walk to_snake_case join h hv ha ws ast fuel i p st.
Proof.
  intros Hhv Hha. revert i p st.
  induction fuel as [|fuel IH]; intros i p st; [done|].
  simpl. case_bool_decide; [done|].
  change (heap_without_skipped h !! i) with ((without_skipped <$> h) !! i).
  rewrite lookup_fmap.
  destruct (h !! i) as [o|]; [|done]. simpl.
  unfold enter. rewrite !hasattr_without_skipped by done.
  by apply children_without_skipped.
Qed.
End Skipping.

(** ** Walking two matching graphs *)

Lemma calls_app tr1 tr2 : calls (tr1 ++ tr2) = calls tr1 ++ calls tr2.
Proof. apply omap_app. Qed.

Section Matching.
Context (to_snake_case : string → string) (join : string → string → string).
Context (f : nat → nat) `{!Inj (=) (=) f}.
Context (h1 h2 : heap) (Hmatch : matching f h1 h2).
Context (hv1 ha1 hv2 ha2 : string) (ws1 ast1 ws2 ast2 : bool).

Local Abbreviation in_step_ := (in_step f).
Local Abbreviation follows_ := (follows f).
Local Abbreviation walk1 :=
  (walk to_snake_case join h1 hv1 ha1 ws1 ast1).
Local Abbreviation walk2 :=
  (walk to_snake_case join h2 hv2 ha2 ws2 ast2).

Lemma matching_lookup i :
  h2 !! f i = rename_obj f <$> h1 !! i.
Proof using Hmatch Inj0.
  destruct Hmatch as [Hdom Hall].
  destruct (h1 !! i) as [o|] eqn:Ho; simpl; [by apply (Hall i)|].
  apply not_elem_of_dom. rewrite Hdom. intros Hin.
  apply elem_of_map in Hin as (j & Hij & Hj).
  apply (inj f) in Hij as <-. by apply not_elem_of_dom in Ho.
Qed.

Lemma matching_elem_name r :
  elem_name to_snake_case h2 (f r) = elem_name to_snake_case h1 r.
Proof using Hmatch Inj0.
  unfold elem_name. rewrite matching_lookup. by destruct (h1 !! r).
Qed.



Lemma container_follows rec1 rec2 :
  follows_ rec1 rec2 →
  ∀ l p used s1 s2 s1',
    in_step_ s1 s2 →
    walk_container_loop to_snake_case join h1 rec1 l p used s1 = Some s1' →
    ∃ s2', walk_container_loop to_snake_case join h2 rec2
             (rename_elem f <$> l) p used s2 = Some s2'
           ∧ in_step_ s1' s2'.
Proof using Hmatch Inj0.
  intros Hrec l p. induction l as [|[r|] l IH]; intros used s1 s2 s1' Hs Hl;
    simpl in *.
  - injection Hl as <-. eauto.
  - rewrite matching_elem_name.
    destruct (used !! _); simpl in *;
      after_step Hl s1m E;
      (destruct (Hrec _ _ _ _ _ Hs E) as (s2m & -> & Hm)); simpl; eauto.
  - eauto.
Qed.

Lemma children_follows rec1 rec2 :
  follows_ rec1 rec2 →
  ∀ l p s1 s2 s1',
    in_step_ s1 s2 →
    walk_children to_snake_case join h1 rec1 l p s1 = Some s1' →
    ∃ s2', walk_children to_snake_case join h2 rec2
             (prod_map id (rename_value f) <$> l) p s2 = Some s2'
           ∧ in_step_ s1' s2'.
Proof using Hmatch Inj0.
  intros Hrec l p. induction l as [|[a v] l IH]; intros s1 s2 s1' Hs Hl;
    simpl in *.
  - injection Hl as <-. eauto.
  - destruct (_ || _); [eauto|].
    destruct v as [c|elts| |]; simpl; [| |eauto..].
    + after_step Hl s1m E.
      destruct (Hrec _ _ _ _ _ Hs E) as (s2m & -> & Hm); simpl; eauto.
    + after_step Hl s1m E.
      destruct (container_follows _ _ Hrec _ _ _ _ _ _ Hs E)
        as (s2m & -> & Hm); simpl; eauto.
Qed.

Lemma in_step_call i p s1 s2 :
  in_step_ s1 s2 → in_step_ (emit (Call i p) s1) (emit (Call (f i) p) s2).
Proof.
  intros (Hv & Hc & Ha). split_and!; simpl.
  - done.
  - rewrite !calls_app, fmap_app, Hc. done.
  - rewrite !adds_app, fmap_app, Ha. done.
Qed.

Lemma in_step_enter o1 o2 i p s1 s2 :
  in_step_ s1 s2 →
  in_step_ (enter hv1 ha1 ws1 ast1 o1 i p s1)
          (enter hv2 ha2 ws2 ast2 o2 (f i) p s2).
Proof.
  intros (Hv & Hc & Ha). split_and!.
  - rewrite !enter_visited, Hv, set_map_union_L, set_map_singleton_L. done.
  - rewrite !enter_trace, !calls_app, fmap_app, Hc. f_equal.
    by repeat destruct (_ && _).
  - rewrite !enter_trace, !adds_app, fmap_app, Ha. f_equal.
    by repeat destruct (_ && _).
Qed.

Lemma walk_follows fuel : follows_ (walk1 fuel) (walk2 fuel).
Proof using Hmatch Inj0.
  induction fuel as [|fuel IH]; intros i p s1 s2 s1' Hs Hw; [done|].
  simpl in *.
  assert (Hdec : bool_decide (f i ∈ visited_trackables s2)
                 = bool_decide (i ∈ visited_trackables s1)).
  { destruct Hs as [-> _]. apply bool_decide_ext. rewrite elem_of_map.
    split; [intros (j & ->%(inj f) & Hj); done|eauto]. }
  revert Hw. rewrite Hdec.
  destruct (bool_decide (i ∈ visited_trackables s1)); intros Hw.
  - injection Hw as <-. eexists; split; [done|]. by apply in_step_call.
  - rewrite matching_lookup.
    destruct (h1 !! i) as [o|]; simpl in *; [|done].
    eapply children_follows; [exact IH| |exact Hw].
    by apply in_step_enter, in_step_call.
Qed.
End Matching.

(** * The claims about the walker *)



(** The walk over [shared_graph], run. *)
Example shared_graph_saved :
  trace <$> _save_state one_word posix_join shared_graph true true 5 0 ""
              fresh
  = Some [ Call 0 ""; OwnVariables 0 ""; Add 0;
           Call 1 "first"; OwnVariables 1 "first"; OwnAssets 1 "first"; Add 1;
           Call 0 "first/owner";
           Call 1 "layers/foo";
           Call 1 "layers/foo_1";
           Call 2 "layers/foo_2"; OwnVariables 2 "layers/foo_2"; Add 2;
           Call 1 "second" ].
Proof. vm_compute. reflexivity. Qed.


(** The names in a list of two [foo], something that is no trackable, a
    [bar] and a third [foo]. *)
Example names_in_a_list :
  spec_calls one_word
    (list_to_map [ (1, Obj "Foo" []); (2, Obj "Foo" []); (3, Obj "Bar" []);
                   (4, Obj "Foo" []) ])
    [] [ETrackable 1; ETrackable 2; EOther; ETrackable 3; ETrackable 4]
  = [ (1, "foo"); (2, "foo_1"); (3, "bar"); (4, "foo_2") ].
Proof. vm_compute. reflexivity. Qed.

(** C7.  One round of the loop over [dir(trackable)], in [_save_state] and
    in [_load_state], hands the value of the attribute on when the name
    does not begin with two underscores, is not in the skip-list, and the
    access does not raise, and otherwise goes to the next attribute with
    the state as it is, whatever the value: a trackable behind such a name
    is not entered, and a raising access ends in no error.  For the whole
    walk: with every double-underscore and skip-listed attribute taken off
    every object, the walk is, event for event, the same. *)
Theorem attribute_traversed_iff_not_skipped to_snake_case join (h : heap)
    ws ast :
  (∀ rec child_attr child_obj rest inner_path st,
     save_children to_snake_case join h rec
       ((child_attr, child_obj) :: rest) inner_path st
     = if traversed child_attr child_obj
       then st ← hand_on join rec
                   (_save_container_state to_snake_case join h rec)
                   child_attr child_obj inner_path st;
            save_children to_snake_case join h rec rest inner_path st
       else save_children to_snake_case join h rec rest inner_path st)
  ∧ (∀ rec child_attr child_obj rest inner_path st,
       load_children to_snake_case join h rec
         ((child_attr, child_obj) :: rest) inner_path st
       = if traversed child_attr child_obj
         then st ← hand_on join rec
                     (_load_container_state to_snake_case join h rec)
                     child_attr child_obj inner_path st;
              load_children to_snake_case join h rec rest inner_path st
         else load_children to_snake_case join h rec rest inner_path st)
  ∧ (∀ fuel trackable inner_path st,
       _save_state to_snake_case join (heap_without_skipped h) ws ast
         fuel trackable inner_path st
       = _save_state to_snake_case join h ws ast fuel trackable inner_path st)
  ∧ (∀ fuel trackable inner_path st,
       _load_state to_snake_case join (heap_without_skipped h) ws ast
         fuel trackable inner_path st
       = _load_state to_snake_case join h ws ast fuel trackable inner_path st).
Proof.
  split_and!.
  - intros rec a v rest p st. simpl. unfold traversed.
    destruct (String.prefix "__" a), (bool_decide (a ∈ ATTR_SKIPLIST));
      simpl; try done.
    by destruct v.
  - intros rec a v rest p st. simpl. unfold traversed.
    destruct (String.prefix "__" a), (bool_decide (a ∈ ATTR_SKIPLIST));
      simpl; try done.
    by destruct v.
  - intros. rewrite !save_state_walk. by apply walk_without_skipped.
  - intros. rewrite !load_state_walk. by apply walk_without_skipped.
Qed.

(** The skip-list holds what the source lists. *)
Example skiplist_has_38_names :
  length (remove_dups ATTR_SKIPLIST) = 38
  ∧ traversed "weights" (VTrackable 3) = false
  ∧ traversed "__dict__" (VTrackable 3) = false
  ∧ traversed "broken" VRaises = false
  ∧ traversed "first" (VTrackable 1) = true.
Proof. vm_compute. done. Qed.

(** C10.  When the container loop comes to a trackable element that is in
    the visited set already, the element still takes its name and still
    moves its counter in [used_names]: the walker is entered under that
    name and returns at its guard, with no hook run and nothing added, and
    the elements after it are named as after any other element of its
    class.  [earlier] holds the class-derived names of the trackable
    elements that the loop has passed, [used_names] their counters. *)
Theorem visited_element_still_counts to_snake_case join (h : heap) ws ast
    fuel i rest inner_path earlier (used_names : gmap string nat) st :
  (∀ b, used_names !! b = counter_after earlier b) →
  i ∈ visited_trackables st →
  let base := elem_name to_snake_case h i in
  let st' := emit (Call i (join inner_path (spec_name earlier base))) st in
  save_container_loop to_snake_case join h
    (_save_state to_snake_case join h ws ast (S fuel))
    (ETrackable i :: rest) inner_path used_names st
  = run_calls join (_save_state to_snake_case join h ws ast (S fuel))
      inner_path (spec_calls to_snake_case h (earlier ++ [base]) rest) st'
  ∧ load_container_loop to_snake_case join h
      (_load_state to_snake_case join h ws ast (S fuel))
      (ETrackable i :: rest) inner_path used_names st
    = run_calls join (_load_state to_snake_case join h ws ast (S fuel))
        inner_path (spec_calls to_snake_case h (earlier ++ [base]) rest) st'.
Proof.
  intros Hused Hi base st'.
  pose proof (save_container_loop_walk to_snake_case join h
                (_save_state to_snake_case join h ws ast (S fuel)) _
                (λ _ _ _, eq_refl)) as Hsave.
  pose proof (load_container_loop_walk to_snake_case join h
                (_load_state to_snake_case join h ws ast (S fuel)) _
                (λ _ _ _, eq_refl)) as Hload.
  split.
  - rewrite Hsave, (container_loop_policy _ _ _ _ _ _ earlier) by done.
    simpl. by rewrite bool_decide_eq_true_2.
  - rewrite Hload, (container_loop_policy _ _ _ _ _ _ earlier) by done.
    simpl. by rewrite bool_decide_eq_true_2.
Qed.

Lemma visited_element_still_counts_witness :
  let st := WState {[ 0; 1 ]} [Add 0; Add 1] in
  let st' := emit (Call 1 "layers/foo_1") st in
  save_container_loop one_word posix_join twice_in_a_list
    (_save_state one_word posix_join twice_in_a_list true true 3)
    [ETrackable 1; ETrackable 2] "layers" {[ "foo" := 0 ]} st
  = run_calls posix_join
      (_save_state one_word posix_join twice_in_a_list true true 3)
      "layers" [ (2, "foo_2") ] st'
  ∧ load_container_loop one_word posix_join twice_in_a_list
      (_load_state one_word posix_join twice_in_a_list true true 3)
      [ETrackable 1; ETrackable 2] "layers" {[ "foo" := 0 ]} st
    = run_calls posix_join
        (_load_state one_word posix_join twice_in_a_list true true 3)
        "layers" [ (2, "foo_2") ] st'.
Proof.
  apply (visited_element_still_counts one_word posix_join twice_in_a_list
           true true 2 1 [ETrackable 2] "layers" ["foo"] {[ "foo" := 0 ]}
           (WState {[ 0; 1 ]} [Add 0; Add 1])).
  - intros b. destruct (decide (b = "foo")) as [->|Hne]; [reflexivity|].
    rewrite lookup_singleton_ne by done. unfold counter_after, occurrences.
    rewrite filter_cons, decide_False by done. reflexivity.
  - vm_compute. reflexivity.
Defined.

(** The list [A, A, B] with [A] and [B] of one class: the names are [foo],
    [foo_1] and [foo_2], and nothing is stored under [foo_1]. *)
Example twice_in_a_list_saved :
  trace <$> _save_state one_word posix_join twice_in_a_list true true 4 0 ""
              fresh
  = Some [ Call 0 ""; Add 0;
           Call 1 "layers/foo"; OwnVariables 1 "layers/foo"; Add 1;
           Call 1 "layers/foo_1";
           Call 2 "layers/foo_2"; OwnVariables 2 "layers/foo_2"; Add 2 ].
Proof. vm_compute. reflexivity. Qed.



(** The load walk over the rebuilt [shared_graph], with no asset store. *)
Example shared_graph_loaded :
  trace <$> _load_state one_word posix_join shared_graph_rebuilt true false
              5 10 "" fresh
  = Some [ Call 10 ""; OwnVariables 10 ""; Add 10;
           Call 11 "first"; OwnVariables 11 "first"; Add 11;
           Call 10 "first/owner";
           Call 11 "layers/foo";
           Call 11 "layers/foo_1";
           Call 12 "layers/foo_2"; OwnVariables 12 "layers/foo_2"; Add 12;
           Call 11 "second" ].
Proof. vm_compute. reflexivity. Qed.

(** * The claims about the stores *)

(** ** [get] on the numeric stores *)

Lemma h5_getitem_contains o name :
  h5_contains o name = false → h5_getitem o name = Raise (KeyError name).
Proof.
  unfold h5_contains, h5_getitem. case_bool_decide as Hc; [done|].
  intros _. destruct (h5_resolve o (components name)); [|done].
  destruct Hc. by eexists.
Qed.

(** At a path that is not empty, [H5IOStore.get] gives the empty dict when
    the path is not in the file, and when the group at the path has no
    ["vars"] in it. *)
Lemma H5IOStore_get_missing self path :
  path ≠ "" →
  h5_contains (h5_file self) path = false
  ∨ (∃ g, h5_getitem (h5_file self) path = Ok g
          ∧ h5_contains g "vars" = false) →
  H5IOStore_get self path = Ok H5Nothing.
Proof.
  intros Hpath Hmiss. unfold H5IOStore_get.
  rewrite bool_decide_eq_false_2 by done.
  destruct Hmiss as [->|(g & -> & ->)]; [done|].
  by rewrite andb_false_r.
Qed.

(** At the empty path it raises when the file has no ["vars"] at its
    root. *)
Lemma H5IOStore_get_root_missing self :
  h5_contains (h5_file self) "vars" = false →
  H5IOStore_get self "" = Raise (KeyError "vars").
Proof.
  intros Hvars. unfold H5IOStore_get. simpl.
  by rewrite (h5_getitem_contains _ _ Hvars).
Qed.

(** [NpzIOStore.get] gives the empty dict at every path that is not among
    the contents, the empty path included, and reads nothing. *)
Lemma NpzIOStore_get_missing self path :
  contents self !! (if bool_decide (path = "") then "__root__" else path)
  = None →
  NpzIOStore_get self path = (Ok NpzNothing, self).
Proof.
  unfold NpzIOStore_get. case_bool_decide; by intros ->.
Qed.

(** C4, at the input on which the code departs from it: reading the root
    location of an HDF5 file that has no ["vars"] group at its root raises
    [KeyError], where an empty mapping is claimed. *)
Theorem H5IOStore_get_root_raises :
  h5_contains (h5_file h5_without_root_vars) "vars" = false
  ∧ H5IOStore_get h5_without_root_vars "" = Raise (KeyError "vars")
  ∧ H5IOStore_get h5_without_root_vars "dropout" = Ok H5Nothing
  ∧ H5IOStore_get h5_without_root_vars "conv" = Ok H5Nothing
  ∧ fst (NpzIOStore_get (NpzIOStore_init "variables.weights.npz" "r" ∅) "")
    = Ok NpzNothing.
Proof. vm_compute. done. Qed.

(** ** [NpzIOStore] in read mode *)




(** ** [DiskIOStore.close] *)




(** * The claims about the top-level operations *)

Lemma try_finally_write_value {A} (m : op A) b w :
  _SAVING_V3_ENABLED (snd (try_finally m (write_value b) w)) = Some b.
Proof. unfold try_finally. by destruct (m w) as [[a|x] w']. Qed.

Lemma try_finally_disk {A} (m : op A) b w :
  disk (snd (try_finally m (write_value b) w)) = disk (snd (m w))
  ∧ fst (try_finally m (write_value b) w) = fst (m w).
Proof. unfold try_finally. by destruct (m w) as [[a|x] w']. Qed.

(** The walk of [save_model] and of [save_weights_only], and the walk of
    [load_model] and of [load_weights_only]: from the root, with the empty
    path and an empty visited set, and once over every node in reach. *)
Lemma walk_save_visits_once to_snake_case join e m ws ast w :
  heap_closed (graph m) → is_Some (graph m !! root m) →
  raises e "_save_state" = false →
  ∃ st,
    walk_save to_snake_case join e m ws ast w
    = (Ok (), World (_SAVING_V3_ENABLED w) (disk w) (warned w) (trace st))
    ∧ visits_once (graph m) "_save_own_variables" "_save_assets" ws ast
        (root m) st.
Proof.
  intros Hclosed Hroot Hno.
  destruct (walk_visits_once to_snake_case join (graph m)
              "_save_own_variables" "_save_assets" ws ast (root m)
              Hclosed Hroot) as (st & Hw & Hv).
  exists st. split; [|done]. unfold walk_save, call. rewrite Hno.
  unfold op_bind. simpl (op_ret _ _). cbv beta iota.
  rewrite save_state_walk, Hw by lia. done.
Qed.

Lemma walk_load_visits_once to_snake_case join e m ws ast w :
  heap_closed (graph m) → is_Some (graph m !! root m) →
  raises e "_load_state" = false →
  ∃ st,
    walk_load to_snake_case join e m ws ast w
    = (Ok (), World (_SAVING_V3_ENABLED w) (disk w) (warned w) (trace st))
    ∧ visits_once (graph m) "_load_own_variables" "_load_assets" ws ast
        (root m) st.
Proof.
  intros Hclosed Hroot Hno.
  destruct (walk_visits_once to_snake_case join (graph m)
              "_load_own_variables" "_load_assets" ws ast (root m)
              Hclosed Hroot) as (st & Hw & Hv).
  exists st. split; [|done]. unfold walk_load, call. rewrite Hno.
  unfold op_bind. simpl (op_ret _ _). cbv beta iota.
  rewrite load_state_walk, Hw by lia. done.
Qed.

(** [load_model] leaves the flag as [saving_v3_enabled] read it before the
    call, however the call ends. *)
Lemma load_model_restores_flag to_snake_case join e rebuilt filepath
    compile w :
  saving_v3_enabled
    (snd (load_model to_snake_case join e rebuilt filepath compile w))
  = saving_v3_enabled w.
Proof.
  unfold load_model. destruct (negb _); [done|].
  unfold op_bind at 1. simpl. unfold op_bind at 1. simpl.
  unfold saving_v3_enabled at 1. by rewrite try_finally_write_value.
Qed.

(** So does [save_model] once the configuration has been serialized. *)
Lemma save_model_restores_flag to_snake_case join e m filepath
    weights_format w :
  raises e "warnings.warn" = false →
  raises e "serialize_keras_object" = false →
  raises e "json.dumps" = false →
  raises e "datetime.now" = false →
  saving_v3_enabled
    (snd (save_model to_snake_case join e m filepath weights_format w))
  = saving_v3_enabled w.
Proof.
  intros Hw Hs Hj Hd. unfold save_model.
  destruct (negb _); [done|]. destruct (_ && _); [done|].
  unfold warn, call. rewrite Hw, Hs, Hj, Hd.
  destruct (negb (built m)); simpl; unfold op_bind; simpl;
    unfold saving_v3_enabled at 1; by rewrite try_finally_write_value.
Qed.

(** C6, at the input on which the code departs from it: when
    [serialize_keras_object] raises, [save_model] raises with the flag
    set, although it was not set before the call. *)
Theorem save_model_leaves_flag_set :
  saving_v3_enabled quiet = false
  ∧ save_model one_word posix_join unserializable shared_model
      "model.keras" "h5" quiet
    = (Raise (Failure "serialize_keras_object"),
       World (Some true) ∅ 0 []).
Proof. vm_compute. done. Qed.




(** A save that goes through, and the load of what it wrote. *)
Example save_then_load :
  disk (snd (save_model one_word posix_join obliging shared_model
               "model.keras" "h5" quiet)) !! "model.keras"
  = Some ["metadata.json"; "config.json"; "variables.weights.h5"]
  ∧ fst (load_model one_word posix_join obliging rebuilt_model "model.keras"
           true
           (snd (save_model one_word posix_join obliging shared_model
                   "model.keras" "h5" quiet)))
    = Ok rebuilt_model.
Proof. vm_compute. done. Qed.

(** * More of the HDF5 store *)

Lemma assoc_rebind_eq {A} c (o : A) l : assoc c (rebind c o l) = Some o.
Proof.
  induction l as [|[k v] l IH]; simpl.
  - by rewrite bool_decide_eq_true_2.
  - case_bool_decide as Hk; simpl; rewrite ?bool_decide_eq_true_2 by done;
      [done|]. by rewrite bool_decide_eq_false_2.
Qed.

Lemma assoc_rebind_ne {A} c d (o : A) l :
  c ≠ d → assoc d (rebind c o l) = assoc d l.
Proof.
  intros Hne. induction l as [|[k v] l IH]; simpl.
  - by rewrite bool_decide_eq_false_2.
  - case_bool_decide as Hk; simpl.
    + subst k. by rewrite !bool_decide_eq_false_2.
    + by rewrite IH.
Qed.

Lemma h5_resolve_app o cs1 cs2 :
  h5_resolve o (cs1 ++ cs2) = h5_resolve o cs1 ≫= λ g, h5_resolve g cs2.
Proof.
  revert o. induction cs1 as [|c cs1 IH]; intros o; simpl; [done|].
  destruct o as [|ms]; [done|]. destruct (assoc c ms); simpl; [apply IH|done].
Qed.

Lemma h5_resolve_dataset data cs :
  cs ≠ [] → h5_resolve (H5Dataset data) cs = None.
Proof. by destruct cs. Qed.

(** All that [create_group] raises is the one [ValueError]. *)
Lemma h5_create_raises o cs x :
  h5_create o cs = Raise x → x = ValueError "Unable to create group".
Proof.
  revert o. induction cs as [|c cs IH]; intros [data|ms] Hx; simpl in Hx;
    try congruence.
  destruct cs as [|c' cs].
  - destruct (assoc c ms); congruence.
  - destruct (h5_create _ (c' :: cs)) as [child|y] eqn:E; simpl in Hx;
      [done|]. injection Hx as <-. by eapply IH.
Qed.

(** What has just been created is there, and empty. *)
Lemma h5_create_resolve o cs o' :
  h5_create o cs = Ok o' → h5_resolve o' cs = Some (H5Group []).
Proof.
  revert o o'. induction cs as [|c cs IH]; intros [data|ms] o' Hc;
    simpl in Hc; try done.
  destruct cs as [|c' cs].
  - destruct (assoc c ms); [done|]. injection Hc as <-. simpl.
    by rewrite assoc_rebind_eq.
  - destruct (h5_create _ (c' :: cs)) as [child|y] eqn:E; simpl in Hc;
      [|done]. injection Hc as <-.
    change (h5_resolve (H5Group (rebind c child ms)) (c :: c' :: cs))
      with (assoc c (rebind c child ms) ≫= λ g, h5_resolve g (c' :: cs)).
    rewrite assoc_rebind_eq. simpl. by eapply IH.
Qed.

(** What is there cannot be created. *)
Lemma h5_create_exists o cs :
  is_Some (h5_resolve o cs) → raised (h5_create o cs) = true.
Proof.
  revert o. induction cs as [|c cs IH]; intros [data|ms] Hr; simpl; try done.
  simpl in Hr. destruct (assoc c ms) as [child|] eqn:Hc; simpl in Hr;
    [|by destruct Hr].
  destruct cs as [|c' cs]; [done|].
  simpl (default _ _). specialize (IH child Hr).
  by destruct (h5_create child (c' :: cs)).
Qed.

(** Creating at [cs] leaves what is at [qs] as it is, unless [qs] is on the
    way to [cs]. *)
Lemma h5_create_frame o cs o' qs x :
  h5_create o cs = Ok o' → h5_resolve o qs = Some x →
  ¬ qs `prefix_of` cs → h5_resolve o' qs = Some x.
Proof.
  revert o o' qs. induction cs as [|c cs IH]; intros [data|ms] o' qs Hc Hq Hp;
    simpl in Hc; try done.
  destruct qs as [|q qs]; [destruct Hp; apply prefix_nil|].
  simpl in Hq. destruct (assoc q ms) as [y|] eqn:Hy; simpl in Hq; [|done].
  assert (Hstep : ∀ child, o' = H5Group (rebind c child ms) →
            (q = c → h5_resolve child qs = Some x) →
            h5_resolve o' (q :: qs) = Some x).
  { intros child -> Hchild. simpl. destruct (decide (q = c)) as [->|Hne].
    - rewrite assoc_rebind_eq. simpl. by apply Hchild.
    - rewrite assoc_rebind_ne by done. by rewrite Hy. }
  destruct cs as [|c' cs].
  - destruct (assoc c ms) eqn:Hcm; [done|]. injection Hc as <-.
    eapply Hstep; [done|]. intros ->. congruence.
  - destruct (h5_create _ (c' :: cs)) as [child|z] eqn:E; simpl in Hc;
      [|done]. injection Hc as <-.
    eapply Hstep; [done|]. intros ->. rewrite Hy in E. simpl in E.
    eapply IH; [exact E|done|]. intros Hpre. apply Hp.
    by apply prefix_cons.
Qed.

Lemma h5_resolve_prefix o qs cs :
  qs `prefix_of` cs → is_Some (h5_resolve o cs) → is_Some (h5_resolve o qs).
Proof.
  intros [r ->]. rewrite h5_resolve_app. by destruct (h5_resolve o qs).
Qed.

Lemma components_vars : components "vars" = ["vars"].
Proof. reflexivity. Qed.

Lemma components_empty : components "" = [].
Proof. reflexivity. Qed.

(** [get], by where the variables of the path lie. *)
Lemma H5IOStore_get_location self path :
  H5IOStore_get self path
  = match h5_resolve (h5_file self) (h5_location path) with
    | Some g => Ok (H5Vars g)
    | None => if bool_decide (path = "") then Raise (KeyError "vars")
              else Ok H5Nothing
    end.
Proof.
  unfold H5IOStore_get, h5_location. case_bool_decide as Hp.
  - unfold h5_getitem. by destruct (h5_resolve _ _).
  - rewrite h5_resolve_app. unfold h5_contains, h5_getitem.
    generalize (components "vars"). intros cv.
    destruct (h5_resolve (h5_file self) (components path)) as [g|]; simpl;
      [|done].
    by destruct (h5_resolve g cv).
Qed.

(** [make], by where the variables of the path lie. *)
Lemma H5IOStore_make_location self path self' :
  H5IOStore_make self path = Ok self' →
  h5_resolve (h5_file self') (h5_location path) = Some (H5Group [])
  ∧ ∀ qs x, h5_resolve (h5_file self) qs = Some x →
            ¬ qs `prefix_of` h5_location path →
            h5_resolve (h5_file self') qs = Some x.
Proof.
  unfold H5IOStore_make, h5_location, h5_create_group.
  case_bool_decide as Hp.
  - destruct (h5_create _ _) as [file|] eqn:E; [|done].
    intros [= <-]. cbn [h5_file]. split; [by eapply h5_create_resolve|].
    intros qs x Hq Hpre. by eapply h5_create_frame.
  - destruct (h5_create _ (components path)) as [file1|] eqn:E1; [|done].
    cbn [mbind result_bind].
    destruct (h5_create file1 _) as [file2|] eqn:E2; [|done].
    intros [= <-]. cbn [h5_file]. split; [by eapply h5_create_resolve|].
    intros qs x Hq Hpre. eapply h5_create_frame; [exact E2| |done].
    eapply h5_create_frame; [exact E1|done|].
    intros Hpre'. apply Hpre. by apply prefix_app_r.
Qed.

(** X1: [get] finds, at the path, the empty location that [make] has just
    made there. *)
Theorem H5IOStore_get_after_make self path self' :
  H5IOStore_make self path = Ok self' →
  H5IOStore_get self' path = Ok (H5Vars (H5Group [])).
Proof.
  intros Hm. rewrite H5IOStore_get_location.
  by destruct (H5IOStore_make_location _ _ _ Hm) as [-> _].
Qed.

Lemma H5IOStore_get_after_make_witness :
  H5IOStore_get
    {| h5_root_path := "model.weights.h5"; h5_mode := "w";
       h5_file :=
         H5Group
           [ ("vars", H5Group []);
             ("dense",
              H5Group [ ("vars", H5Group [ ("0", H5Dataset [1; 2]%Z) ]) ]);
             ("layers",
              H5Group [ ("foo", H5Group [ ("vars", H5Group []) ]) ]) ] |}
    "layers/foo"
  = Ok (H5Vars (H5Group [])).
Proof.
  apply (H5IOStore_get_after_make h5_being_written "layers/foo").
  reflexivity.
Defined.



(** X3: a location cannot be made twice, and a path cannot be made once a
    path below it has been: [make] raises [ValueError] at every path on
    the way to one that it has made. *)
Theorem H5IOStore_make_again_raises self path self' path' :
  H5IOStore_make self path = Ok self' →
  (path' = "" → path = "") →
  components path' `prefix_of` components path →
  H5IOStore_make self' path' = Raise (ValueError "Unable to create group").
Proof.
  intros Hm Hroot Hpre.
  destruct (H5IOStore_make_location _ _ _ Hm) as [Hloc _].
  assert (Hthere : is_Some (h5_resolve (h5_file self')
            (if bool_decide (path' = "") then components "vars"
             else components path'))).
  { unfold h5_location in Hloc.
    destruct (decide (path' = "")) as [Hp'|Hp'];
      [rewrite (bool_decide_eq_true_2 (path' = "")) by done
      |rewrite (bool_decide_eq_false_2 (path' = "")) by done].
    - rewrite bool_decide_eq_true_2 in Hloc by auto. by rewrite Hloc.
    - destruct (decide (path = "")) as [Hp|Hp].
      + subst path. rewrite components_empty in Hpre.
        apply prefix_nil_inv in Hpre. rewrite Hpre. by eexists.
      + rewrite bool_decide_eq_false_2 in Hloc by done.
        eapply h5_resolve_prefix; [|by rewrite Hloc].
        by apply prefix_app_r. }
  apply h5_create_exists in Hthere.
  assert (Hraised : raised (H5IOStore_make self' path') = true).
  { unfold H5IOStore_make, h5_create_group.
    case_bool_decide; by destruct (h5_create (h5_file self') _). }
  destruct (H5IOStore_make self' path') as [s|x] eqn:E; [done|].
  f_equal. unfold H5IOStore_make, h5_create_group in E.
  case_bool_decide.
  - destruct (h5_create _ _) as [|y] eqn:E1; simpl in E; [done|].
    injection E as <-. by eapply h5_create_raises.
  - destruct (h5_create _ (components path')) as [f1|y] eqn:E1; simpl in E.
    + destruct (h5_create f1 _) as [|y] eqn:E2; simpl in E; [done|].
      injection E as <-. by eapply h5_create_raises.
    + injection E as <-. by eapply h5_create_raises.
Qed.

Lemma H5IOStore_make_again_raises_witness :
  H5IOStore_make
    {| h5_root_path := "model.weights.h5"; h5_mode := "w";
       h5_file :=
         H5Group
           [ ("vars", H5Group []);
             ("dense",
              H5Group [ ("vars", H5Group [ ("0", H5Dataset [1; 2]%Z) ]) ]);
             ("layers",
              H5Group [ ("foo", H5Group [ ("vars", H5Group []) ]) ]) ] |}
    "layers"
  = Raise (ValueError "Unable to create group").
Proof.
  apply (H5IOStore_make_again_raises h5_being_written "layers/foo" _
           "layers").
  - reflexivity.
  - discriminate.
  - exists ["foo"]. reflexivity.
Defined.

(** X4: [make] leaves every location that is stored already as [get] gave
    it, those apart that lie on the way to the new one. *)
Theorem H5IOStore_make_keeps_others self path self' path' g :
  H5IOStore_make self path = Ok self' →
  H5IOStore_get self path' = Ok (H5Vars g) →
  ¬ h5_location path' `prefix_of` h5_location path →
  H5IOStore_get self' path' = Ok (H5Vars g).
Proof.
  intros Hm Hg Hpre. rewrite H5IOStore_get_location in *.
  destruct (H5IOStore_make_location _ _ _ Hm) as [_ Hframe].
  destruct (h5_resolve (h5_file self) (h5_location path')) as [g'|] eqn:E.
  - injection Hg as ->. by rewrite (Hframe _ _ E Hpre).
  - by case_bool_decide.
Qed.

Lemma H5IOStore_make_keeps_others_witness :
  H5IOStore_get
    {| h5_root_path := "model.weights.h5"; h5_mode := "w";
       h5_file :=
         H5Group
           [ ("vars", H5Group []);
             ("dense",
              H5Group [ ("vars", H5Group [ ("0", H5Dataset [1; 2]%Z) ]) ]);
             ("layers",
              H5Group [ ("foo", H5Group [ ("vars", H5Group []) ]) ]) ] |}
    "dense"
  = Ok (H5Vars (H5Group [ ("0", H5Dataset [1; 2]%Z) ])).
Proof.
  apply (H5IOStore_make_keeps_others h5_being_written "layers/foo" _
           "dense").
  - reflexivity.
  - reflexivity.
  - apply (bool_decide_unpack _). vm_compute. exact I.
Defined.

(** An attribute that is itself called [vars] runs into the location of
    its owner: after the root has its location, there is none to make for
    [vars]. *)
Example vars_attribute_collides :
  H5IOStore_make h5_being_written "vars"
  = Raise (ValueError "Unable to create group").
Proof. reflexivity. Qed.

(** * More of the disk store *)

Lemma fs_makedirs_lookup node cs node' :
  fs_makedirs node cs = Ok node' → is_Some (fs_lookup node' cs).
Proof.
  revert node node'. induction cs as [|c cs IH]; intros node node' H.
  - by eexists.
  - destruct node as [|entries]; [done|]. simpl in H.
    destruct (fs_makedirs (default (Dir []) (assoc c entries)) cs)
      as [child|] eqn:E; [|done].
    simpl in H. injection H as <-. simpl. rewrite assoc_rebind_eq. simpl.
    by eapply IH.
Qed.

Lemma fs_makedirs_keeps_files node cs node' qs :
  fs_makedirs node cs = Ok node' →
  fs_lookup node qs = Some File → fs_lookup node' qs = Some File.
Proof.
  revert node node' qs. induction cs as [|c cs IH]; intros node node' qs H Hq.
  - destruct node; [done|]. simpl in H. by injection H as <-.
  - destruct node as [|entries]; [done|]. simpl in H.
    destruct (fs_makedirs (default (Dir []) (assoc c entries)) cs)
      as [child|] eqn:E; [|done].
    simpl in H. injection H as <-.
    destruct qs as [|q qs]; [done|]. simpl in *.
    destruct (decide (c = q)) as [->|Hne].
    + rewrite assoc_rebind_eq. simpl.
      destruct (assoc q entries) as [y|] eqn:Ey; [|done]. simpl in *.
      by eapply IH.
    + by rewrite assoc_rebind_ne.
Qed.

Lemma staged_at_true fs t path :
  staged_at fs t path = true ↔
  is_Some (tmp fs !! t ≫= λ node, fs_lookup node (components path)).
Proof. unfold staged_at. by rewrite bool_decide_eq_true. Qed.

Lemma DiskIOStore_make_staged join self path fs p fs' t :
  DiskIOStore_make join self path fs = (Ok p, fs') →
  path ≠ "" → tmp_dir self = Some t →
  p = Some (join t path) ∧ staged_at fs' t path = true.
Proof.
  unfold DiskIOStore_make. intros H Hpath Ht.
  rewrite bool_decide_eq_false_2, Ht in H by done.
  destruct (staged_at fs t path) eqn:Est.
  - by injection H as <- <-.
  - destruct (fs_makedirs _ _) as [node|] eqn:E; [|done].
    injection H as <- <-. split; [done|].
    apply staged_at_true. simpl. rewrite lookup_insert_eq. simpl.
    by eapply fs_makedirs_lookup.
Qed.

(** X5: what [make] returns for a path is what [get] returns for it
    afterwards: the directory is there. *)
Theorem DiskIOStore_get_after_make join self path fs p fs' :
  DiskIOStore_make join self path fs = (Ok p, fs') →
  DiskIOStore_get join self path fs' = Ok p.
Proof.
  intros H. destruct (decide (path = "")) as [->|Hpath].
  - unfold DiskIOStore_make, DiskIOStore_get in *. simpl in *.
    by injection H as <- <-.
  - destruct (tmp_dir self) as [t|] eqn:Ht.
    + destruct (DiskIOStore_make_staged _ _ _ _ _ _ _ H Hpath Ht) as [-> Hst].
      unfold DiskIOStore_get.
      by rewrite bool_decide_eq_false_2, Ht, Hst by done.
    + unfold DiskIOStore_make in H.
      by rewrite bool_decide_eq_false_2, Ht in H by done.
Qed.

Lemma DiskIOStore_get_after_make_witness :
  DiskIOStore_get posix_join unstaged.1 "layers/dense"
    (DiskIOStore_make posix_join unstaged.1 "layers/dense" unstaged.2).2
  = Ok (Some "/tmp/tmp0/layers/dense").
Proof.
  apply (DiskIOStore_get_after_make posix_join unstaged.1 "layers/dense"
           unstaged.2).
  vm_compute. reflexivity.
Defined.

(** X6: [make] of a path that was made before changes nothing, and
    returns the same directory. *)
Theorem DiskIOStore_make_twice join self path fs p fs' :
  DiskIOStore_make join self path fs = (Ok p, fs') →
  DiskIOStore_make join self path fs' = (Ok p, fs').
Proof.
  intros H. destruct (decide (path = "")) as [->|Hpath].
  - unfold DiskIOStore_make in *. simpl in *. by injection H as <- <-.
  - destruct (tmp_dir self) as [t|] eqn:Ht.
    + destruct (DiskIOStore_make_staged _ _ _ _ _ _ _ H Hpath Ht) as [-> Hst].
      unfold DiskIOStore_make.
      by rewrite bool_decide_eq_false_2, Ht, Hst by done.
    + unfold DiskIOStore_make in H.
      by rewrite bool_decide_eq_false_2, Ht in H by done.
Qed.

Lemma DiskIOStore_make_twice_witness :
  let fs' := (DiskIOStore_make posix_join unstaged.1 "layers/dense"
                unstaged.2).2 in
  DiskIOStore_make posix_join unstaged.1 "layers/dense" fs'
  = (Ok (Some "/tmp/tmp0/layers/dense"), fs').
Proof.
  apply (DiskIOStore_make_twice posix_join unstaged.1 "layers/dense"
           unstaged.2).
  vm_compute. reflexivity.
Defined.

(** X7: [make] loses no file: a file that lies in a temporary directory,
    of this store or of another, lies there after it. *)
Theorem DiskIOStore_make_keeps_files join self path fs p fs' t node qs :
  DiskIOStore_make join self path fs = (Ok p, fs') →
  tmp fs !! t = Some node → fs_lookup node qs = Some File →
  ∃ node', tmp fs' !! t = Some node' ∧ fs_lookup node' qs = Some File.
Proof.
  unfold DiskIOStore_make. intros H Ht Hq.
  case_bool_decide; [injection H as <- <-; eauto|].
  destruct (tmp_dir self) as [t0|]; [|done].
  destruct (staged_at fs t0 path); [injection H as <- <-; eauto|].
  destruct (fs_makedirs _ _) as [node0|] eqn:E; [|done].
  injection H as <- <-. simpl.
  destruct (decide (t0 = t)) as [->|Hne].
  - rewrite lookup_insert_eq. eexists. split; [done|].
    rewrite Ht in E. simpl in E. by eapply fs_makedirs_keeps_files.
  - rewrite lookup_insert_ne by done. eauto.
Qed.

Lemma DiskIOStore_make_keeps_files_witness :
  ∃ node',
    tmp (DiskIOStore_make posix_join staged.1 "a/more" staged.2).2
      !! "/tmp/tmp0" = Some node' ∧
    fs_lookup node' ["a"; "vocab.txt"] = Some File.
Proof.
  eapply (DiskIOStore_make_keeps_files posix_join staged.1 "a/more"
            staged.2).
  - vm_compute. reflexivity.
  - vm_compute. reflexivity.
  - vm_compute. reflexivity.
Defined.

(** * More of [_write_to_zip_recursively] *)

Lemma zip_write_all_app zf l1 l2 :
  zip_write_all zf (l1 ++ l2) =
  match zip_write_all zf l1 with
  | (Ok _, zf) => zip_write_all zf l2
  | (Raise x, zf) => (Raise x, zf)
  end.
Proof.
  revert zf. induction l1 as [|p l1 IH]; intros zf; simpl; [done|].
  destruct (zip_write zf p) as [[[]|x] zf']; [apply IH|done].
Qed.

(** Putting a tree into the archive is writing its files one after the
    other, each under the path that leads to it from the root, up to the
    first file that the archive refuses; a directory gets no member of its
    own. *)
Lemma write_to_zip_flat join zf node zip_path :
  _write_to_zip_recursively join zf node zip_path
  = zip_write_all zf (file_paths join node zip_path).
Proof.
  revert zf zip_path. induction node as [|entries IH] using fsnode_nested_ind;
    intros zf zip_path; simpl.
  - by destruct (zip_write zf zip_path) as [[[]|x] zf'].
  - revert zf. induction IH as [|[file_name child] rest Hchild _ IHrest];
      intros zf; [done|].
    simpl in Hchild. rewrite zip_write_all_app, <- Hchild.
    destruct (_write_to_zip_recursively join zf child _) as [[[]|x] zf'];
      [apply IHrest|done].
Qed.

Lemma zip_write_all_members zf l r zf' :
  zip_write_all zf l = (r, zf') →
  refuses zf' = refuses zf ∧
  ∃ written, members zf' = members zf ++ written ∧ written `prefix_of` l ∧
    Forall (λ p, p ∉ refuses zf) written ∧
    match r with
    | Ok _ => written = l
    | Raise _ => ∃ p, p ∈ refuses zf ∧ (written ++ [p]) `prefix_of` l
    end.
Proof.
  revert zf. induction l as [|p l IH]; intros zf H; simpl in H.
  - injection H as <- <-. split; [done|]. exists [].
    by rewrite app_nil_r.
  - unfold zip_write in H. case_bool_decide as Hp.
    + injection H as <- <-. split; [done|]. exists [].
      rewrite app_nil_r. repeat split; [apply prefix_nil|constructor|].
      exists p. split; [done|]. by exists l.
    + destruct (IH _ H) as (Hr & w & Hm & Hpre & Hall & Hres). simpl in *.
      split; [done|]. exists (p :: w). rewrite Hm, <- app_assoc.
      repeat split.
      * by apply prefix_cons.
      * by constructor.
      * destruct r as [[]|x]; [by subst|].
        destruct Hres as (q & Hq & Hpre'). exists q. split; [done|].
        simpl. by apply prefix_cons.
Qed.

(** X8: whatever comes of it, the archive only gains members: those it
    had are kept in their places, and the new ones are files of the tree,
    in the order of the tree, none left out before the last.  It fails
    exactly at a file that the archive refuses. *)
Theorem write_to_zip_appends join zf node zip_path r zf' :
  _write_to_zip_recursively join zf node zip_path = (r, zf') →
  ∃ written,
    members zf' = members zf ++ written ∧
    written `prefix_of` file_paths join node zip_path ∧
    (r = Ok () ↔ written = file_paths join node zip_path) ∧
    (r = Ok () ↔ ∀ p, p ∈ file_paths join node zip_path → p ∉ refuses zf).
Proof.
  rewrite write_to_zip_flat. intros H.
  destruct (zip_write_all_members _ _ _ _ H) as (_ & w & Hm & Hpre & Hall & Hr).
  exists w. split; [done|]. split; [done|].
  destruct r as [[]|x].
  - subst w. split; [done|]. split; [|done].
    intros _ p Hp. by eapply Forall_forall in Hall.
  - destruct Hr as (p & Hp & Hpre'). split; [split; [done|]|split; [done|]].
    + intros ->. destruct Hpre' as [k Hk].
      rewrite <- app_assoc in Hk. apply (f_equal length) in Hk.
      rewrite !length_app in Hk. simpl in Hk. lia.
    + intros Hno. destruct (Hno p); [|done].
      destruct Hpre' as [k ->]. set_solver.
Qed.

Lemma write_to_zip_appends_witness :
  ∃ written,
    members (_write_to_zip_recursively posix_join
               (Zip ["metadata.json"] ["assets/b/vocab.txt"])
               (Dir [("a", Dir [("vocab.txt", File)]);
                     ("b", Dir [("vocab.txt", File)])]) "assets").2
    = ["metadata.json"] ++ written ∧
    written `prefix_of`
      file_paths posix_join
        (Dir [("a", Dir [("vocab.txt", File)]);
              ("b", Dir [("vocab.txt", File)])]) "assets" ∧
    (Raise (Failure "ZipFile.write") = Ok () ↔
     written = file_paths posix_join
        (Dir [("a", Dir [("vocab.txt", File)]);
              ("b", Dir [("vocab.txt", File)])]) "assets") ∧
    (Raise (Failure "ZipFile.write") = Ok () ↔
     ∀ p, p ∈ file_paths posix_join
        (Dir [("a", Dir [("vocab.txt", File)]);
              ("b", Dir [("vocab.txt", File)])]) "assets" →
       p ∉ refuses (Zip ["metadata.json"] ["assets/b/vocab.txt"])).
Proof.
  apply (write_to_zip_appends posix_join
           (Zip ["metadata.json"] ["assets/b/vocab.txt"])
           (Dir [("a", Dir [("vocab.txt", File)]);
                 ("b", Dir [("vocab.txt", File)])]) "assets").
  vm_compute. reflexivity.
Defined.

(** * More of [DiskIOStore.close] *)

(** X9: when no file was staged, [close] leaves the archive as it was,
    with no member for the assets at all, and removes the temporary
    directory. *)
Theorem close_without_files_adds_nothing join self fs t node :
  tmp_dir self = Some t → tmp fs !! t = Some node →
  file_paths join node (disk_root_path self) = [] →
  DiskIOStore_close join self fs
  = (Ok (), disk_archive self, Files (delete t (tmp fs)) (made fs)).
Proof.
  intros Ht Hnode Hnone. unfold DiskIOStore_close.
  rewrite Ht.
  replace (Some t ≫= λ t, tmp fs !! t) with (Some node) by done.
  rewrite (bool_decide_eq_true_2 (is_Some _)) by eauto.
  case_bool_decide; [|done].
  destruct (disk_archive self) as [zf|]; [|done].
  by rewrite write_to_zip_flat, Hnone.
Qed.

Lemma close_without_files_adds_nothing_witness :
  DiskIOStore_close posix_join unstaged.1
    (DiskIOStore_make posix_join unstaged.1 "layers/dense" unstaged.2).2
  = (Ok (), Some (Zip ["metadata.json"; "config.json"] []), Files ∅ 1).
Proof.
  apply (close_without_files_adds_nothing posix_join unstaged.1
           (DiskIOStore_make posix_join unstaged.1 "layers/dense"
              unstaged.2).2 "/tmp/tmp0"
           (Dir [("layers", Dir [("dense", Dir [])])])).
  - vm_compute. reflexivity.
  - vm_compute. reflexivity.
  - vm_compute. reflexivity.
Defined.

(** X10: a store that was made with no archive copies nothing when it is
    closed: what was staged in its temporary directory is deleted with
    it, and [close] does not fail. *)
Theorem close_without_archive_discards join root_path mode extracted fs0 fs :
  mode ≠ Some "r" →
  let self := (DiskIOStore_init root_path None mode extracted fs0).1 in
  ∃ t, tmp_dir self = Some t ∧
    DiskIOStore_close join self fs
    = (Ok (), None,
       if bool_decide (is_Some (tmp fs !! t))
       then Files (delete t (tmp fs)) (made fs) else fs).
Proof.
  intros Hmode. unfold DiskIOStore_init.
  rewrite bool_decide_eq_false_2 by done. simpl.
  eexists. split; [done|]. unfold DiskIOStore_close. simpl.
  by repeat case_bool_decide.
Qed.

Lemma close_without_archive_discards_witness :
  ∃ t,
    tmp_dir (DiskIOStore_init "assets" None (Some "w") (Dir []) (Files ∅ 0)).1
    = Some t ∧
    DiskIOStore_close posix_join
      (DiskIOStore_init "assets" None (Some "w") (Dir []) (Files ∅ 0)).1
      (Files {[ "/tmp/tmp0" := Dir [("vocab.txt", File)] ]} 1)
    = (Ok (), None,
       if bool_decide (is_Some
            ((tmp (Files {[ "/tmp/tmp0" := Dir [("vocab.txt", File)] ]} 1)
               : gmap string fsnode) !! t))
       then Files (delete t
                     (tmp (Files {[ "/tmp/tmp0" := Dir [("vocab.txt", File)] ]}
                             1)))
              (made (Files {[ "/tmp/tmp0" := Dir [("vocab.txt", File)] ]} 1))
       else Files {[ "/tmp/tmp0" := Dir [("vocab.txt", File)] ]} 1).
Proof.
  apply (close_without_archive_discards posix_join "assets" (Some "w")
           (Dir []) (Files ∅ 0)
           (Files {[ "/tmp/tmp0" := Dir [("vocab.txt", File)] ]} 1)).
  discriminate.
Defined.

(** * The members that [close] writes, under POSIX paths *)

Lemma string_app_cons x (a b : string) :
  String x a +:+ b = String x (a +:+ b).
Proof. reflexivity. Qed.

Lemma prefix_app_l a b : String.prefix a (a +:+ b) = true.
Proof.
  induction a as [|c a IH]; [by destruct b|].
  rewrite string_app_cons. simpl. by destruct (ascii_dec c c).
Qed.

Lemma prefix_app_r p s t :
  String.prefix p s = true → String.prefix p (s +:+ t) = true.
Proof.
  revert s. induction p as [|c p IH]; intros s H.
  - by destruct (s +:+ t).
  - destruct s as [|d s]; [done|]. rewrite string_app_cons. simpl in *.
    destruct (ascii_dec c d); [by apply IH|done].
Qed.

Lemma prefix_length p s :
  String.prefix p s = true → String.length p ≤ String.length s.
Proof.
  revert s. induction p as [|c p IH]; intros s H; [simpl; lia|].
  destruct s as [|d s]; [done|]. simpl in *.
  destruct (ascii_dec c d); [|done]. apply IH in H. lia.
Qed.

Lemma string_app_assoc (a b c : string) : (a +:+ b) +:+ c = a +:+ (b +:+ c).
Proof.
  induction a as [|x a IH]; [done|]. rewrite !string_app_cons. by f_equal.
Qed.

Lemma string_app_length (a b : string) :
  String.length (a +:+ b) = String.length a + String.length b.
Proof.
  induction a as [|x a IH]; [done|]. rewrite string_app_cons. simpl.
  by f_equal.
Qed.

Lemma below_join zip_path a file_name :
  below zip_path a = true → below zip_path (posix_join a file_name) = true.
Proof.
  unfold below, posix_join. intros H.
  destruct (String.prefix "/" file_name) eqn:E; [by rewrite E|].
  apply orb_true_iff in H. apply orb_true_iff.
  destruct (_ || _); (destruct H as [H|H]; [left|right]);
    by apply prefix_app_r.
Qed.

Lemma below_join_root zip_path file_name :
  zip_path ≠ "" → endswith zip_path "/" = false →
  below zip_path (posix_join zip_path file_name) = true.
Proof.
  unfold below, posix_join. intros Hne Hend.
  destruct (String.prefix "/" file_name) eqn:E; [by rewrite E|].
  rewrite bool_decide_eq_false_2, Hend by done. simpl orb at 2.
  cbv iota. apply orb_true_iff. right.
  rewrite <- string_app_assoc. apply prefix_app_l.
Qed.

Lemma below_ne zip_path s :
  String.prefix "/" zip_path = false → below zip_path s = true →
  s ≠ zip_path.
Proof.
  unfold below. intros Habs H ->. apply orb_true_iff in H.
  destruct H as [H|H]; [congruence|].
  apply prefix_length in H. rewrite string_app_length in H. simpl in H. lia.
Qed.

Lemma file_paths_below zip_path node a :
  below zip_path a = true →
  Forall (λ p, below zip_path p = true) (file_paths posix_join node a).
Proof.
  revert a. induction node as [|entries IH] using fsnode_nested_ind;
    intros a Ha; simpl; [by repeat constructor|].
  induction IH as [|[file_name child] rest Hchild _ IHrest]; [constructor|].
  apply Forall_app. split; [|done]. apply Hchild. by apply below_join.
Qed.

Lemma file_paths_below_root zip_path entries :
  zip_path ≠ "" → endswith zip_path "/" = false →
  Forall (λ p, below zip_path p = true)
    (file_paths posix_join (Dir entries) zip_path).
Proof.
  intros Hne Hend. simpl.
  induction entries as [|[file_name child] rest IH]; [constructor|].
  apply Forall_app. split; [|done].
  apply file_paths_below. by apply below_join_root.
Qed.

(** X11: with POSIX paths, [close] files what was staged below the root
    path of the store, and gives the archive no member that is named by
    the root path itself. *)
Theorem close_writes_below_root_path self fs zf t entries r zf' fs' :
  disk_root_path self ≠ "" →
  endswith (disk_root_path self) "/" = false →
  String.prefix "/" (disk_root_path self) = false →
  disk_archive self = Some zf → tmp_dir self = Some t →
  tmp fs !! t = Some (Dir entries) →
  DiskIOStore_close posix_join self fs = (r, Some zf', fs') →
  ∃ written,
    members zf' = members zf ++ written
    ∧ Forall (λ p, below (disk_root_path self) p = true) written
    ∧ disk_root_path self ∉ written.
Proof.
  intros Hne Hend Habs Harch Ht Hdir H.
  assert (Hw : ∃ written, members zf' = members zf ++ written
                ∧ written `prefix_of`
                    file_paths posix_join (Dir entries) (disk_root_path self)).
  { unfold DiskIOStore_close in H. rewrite Harch, Ht in H.
    replace (Some t ≫= λ t, tmp fs !! t) with (Some (Dir entries)) in H
      by done.
    case_bool_decide.
    - rewrite write_to_zip_flat in H.
      destruct (zip_write_all zf _) as [r0 zf0] eqn:E.
      destruct (zip_write_all_members _ _ _ _ E)
        as (_ & w & Hm & Hpre & _ & _).
      exists w. split; [|done].
      destruct r0 as [[]|x]; [|by injection H as _ <- _].
      rewrite (bool_decide_eq_true_2 (is_Some _)) in H by eauto.
      by injection H as _ <- _.
    - exists []. rewrite app_nil_r. split; [|apply prefix_nil].
      rewrite (bool_decide_eq_true_2 (is_Some _)) in H by eauto.
      by injection H as _ <- _. }
  destruct Hw as (written & Hm & [k Hk]).
  pose proof (file_paths_below_root _ entries Hne Hend) as Hall.
  rewrite Hk in Hall. apply Forall_app in Hall as [Hall _].
  exists written. split; [done|]. split; [done|].
  intros Hin. eapply Forall_forall in Hall; [|done].
  by eapply below_ne in Hall.
Qed.

Lemma close_writes_below_root_path_witness :
  ∃ written,
    members (Zip ["metadata.json"; "config.json"; "assets/a/vocab.txt"]
               ["assets/b/vocab.txt"])
    = members (Zip ["metadata.json"; "config.json"] ["assets/b/vocab.txt"])
      ++ written
    ∧ Forall (λ p, below (disk_root_path staged.1) p = true) written
    ∧ disk_root_path staged.1 ∉ written.
Proof.
  eapply (close_writes_below_root_path staged.1 staged.2).
  - discriminate.
  - reflexivity.
  - reflexivity.
  - vm_compute. reflexivity.
  - vm_compute. reflexivity.
  - vm_compute. reflexivity.
  - vm_compute. reflexivity.
Defined.

(** * More of the NumPy store *)



(** * More of the walker *)

(** ** The names within one container *)

Lemma name_after_fresh base k : name_after base (S k) ≠ base.
Proof.
  simpl. intros H. apply (f_equal String.length) in H.
  rewrite string_app_length in H. simpl in H. lia.
Qed.

Lemma name_after_inj base : Inj (=) (=) (name_after base).
Proof.
  intros [|k] [|k'] H; [done| | |].
  - symmetry in H. by apply name_after_fresh in H.
  - by apply name_after_fresh in H.
  - simpl in H. apply (inj _) in H. apply (inj _) in H.
    by apply (inj _) in H.
Qed.

Lemma spec_name_after earlier base :
  spec_name earlier base = name_after base (occurrences base earlier).
Proof. done. Qed.

Lemma spec_calls_later to_snake_case h earlier l r n :
  (r, n) ∈ spec_calls to_snake_case h earlier l →
  ∃ k, occurrences (elem_name to_snake_case h r) earlier ≤ k
       ∧ n = name_after (elem_name to_snake_case h r) k.
Proof.
  revert earlier. induction l as [|[r0|] l IH]; intros earlier Hin;
    simpl in Hin; [by apply elem_of_nil in Hin| |by apply IH].
  apply elem_of_cons in Hin as [[= -> ->]|Hin].
  - eexists. split; [done|]. apply spec_name_after.
  - apply IH in Hin as (k & Hk & ->). exists k. split; [|done].
    rewrite occurrences_snoc in Hk. lia.
Qed.

Lemma spec_calls_refs to_snake_case h earlier l :
  (spec_calls to_snake_case h earlier l).*1 = elem_refs l.
Proof.
  revert earlier. induction l as [|[r|] l IH]; intros earlier; simpl;
    [done| |apply IH].
  unfold elem_refs. simpl. f_equal. apply IH.
Qed.

Lemma spec_calls_distinct to_snake_case h earlier l i j r1 n1 r2 n2 :
  i < j →
  spec_calls to_snake_case h earlier l !! i = Some (r1, n1) →
  spec_calls to_snake_case h earlier l !! j = Some (r2, n2) →
  elem_name to_snake_case h r1 = elem_name to_snake_case h r2 →
  n1 ≠ n2.
Proof.
  revert earlier i j. induction l as [|[r0|] l IH]; intros earlier i j Hij H1 H2 Hb;
    simpl in *; [done| |by eapply IH].
  destruct j as [|j]; [lia|]. destruct i as [|i].
  - simpl in *. injection H1 as -> <-.
    apply list_elem_of_lookup_2, spec_calls_later in H2 as (k & Hk & ->).
    rewrite spec_name_after, <- Hb. intros Heq.
    apply name_after_inj in Heq. rewrite <- Hb, occurrences_snoc in Hk.
    rewrite decide_True in Hk by done. lia.
  - simpl in *. eapply IH; [|done..]. lia.
Qed.

(** X13: in one container, two elements whose classes give the same name
    are filed under different names, whether they are the same object or
    not; the names go to the trackable elements in their order. *)
Theorem same_class_elements_get_distinct_names to_snake_case join (h : heap)
    rec container inner_path st :
  ∃ named,
    _save_container_state to_snake_case join h rec container inner_path st
    = run_calls join rec inner_path named
        st
    ∧ _load_container_state to_snake_case join h rec container inner_path st
      = run_calls join rec inner_path named st
    ∧ named.*1 = elem_refs container
    ∧ ∀ i j r1 n1 r2 n2,
        i < j → named !! i = Some (r1, n1) → named !! j = Some (r2, n2) →
        elem_name to_snake_case h r1 = elem_name to_snake_case h r2 →
        n1 ≠ n2.
Proof.
  exists (spec_calls to_snake_case h [] container).
  split; [|split; [|split]].
  - unfold _save_container_state.
    rewrite (save_container_loop_walk _ _ _ rec rec) by done.
    by apply container_loop_policy.
  - unfold _load_container_state.
    rewrite (load_container_loop_walk _ _ _ rec rec) by done.
    by apply container_loop_policy.
  - apply spec_calls_refs.
  - intros i j r1 n1 r2 n2. apply spec_calls_distinct.
Qed.

(** Elements of different classes can still get one name: the second
    [Foo] of a list is filed as [foo_1], and so is a [Foo_1]. *)
Example names_of_different_classes_collide :
  spec_calls one_word
    (list_to_map [ (1, Obj "Foo" []); (2, Obj "Foo" []);
                   (3, Obj "Foo_1" []) ])
    [] [ETrackable 1; ETrackable 2; ETrackable 3]
  = [ (1, "foo"); (2, "foo_1"); (3, "foo_1") ].
Proof. vm_compute. reflexivity. Qed.

(** ** The order of a trace *)

Section Blocks.
Context (to_snake_case : string → string) (join : string → string → string).
Context (h : heap) (hv ha : string) (ws ast : bool).

Lemma in_blocks_app V d1 d2 :
  in_blocks h hv ha ws ast V d1 →
  in_blocks h hv ha ws ast (list_to_set (adds d1) ∪ V) d2 →
  in_blocks h hv ha ws ast V (d1 ++ d2).
Proof.
  induction 1 as [V|V i p tr Hi _ IH|V i p o tr Hi Ho _ IH]; intros H2.
  - simpl in H2. by replace (∅ ∪ V) with V in H2 by set_solver.
  - simpl. apply blocks_seen; [done|]. by apply IH.
  - simpl. rewrite <- app_assoc. apply blocks_new; [done..|]. apply IH.
    replace (list_to_set (adds tr) ∪ ({[i]} ∪ V))
      with (list_to_set
              (adds (Call i p :: first_visit hv ha ws ast o i p ++ tr)) ∪ V);
      [done|].
    unfold first_visit. simpl. rewrite !adds_app.
    do 2 destruct (_ && _); simpl; set_solver.
Qed.

#[local] Instance by_blocks_preorder : PreOrder (by_blocks h hv ha ws ast).
Proof.
  split.
  - intros st. exists []. rewrite app_nil_r. split; [done|].
    split; [constructor|]. simpl. set_solver.
  - intros s1 s2 s3 (d1 & E1 & B1 & V1) (d2 & E2 & B2 & V2).
    exists (d1 ++ d2). rewrite E2, E1, app_assoc. split; [done|]. split.
    + apply in_blocks_app; [done|]. by rewrite <- V1.
    + rewrite V2, V1, adds_app, list_to_set_app_L. set_solver.
Qed.

Lemma walk_by_blocks fuel i p st st' :
  walk to_snake_case join h hv ha ws ast fuel i p st = Some st' →
  by_blocks h hv ha ws ast st st'.
Proof.
  apply (walk_lift _ _ _ _ _ _ _ (by_blocks h hv ha ws ast)).
  - intros i0 p0 st0 Hin. exists [Call i0 p0]. split; [done|]. split.
    + apply blocks_seen; [done|constructor].
    + simpl. set_solver.
  - intros i0 p0 o st0 Hout Ho.
    exists (Call i0 p0 :: first_visit hv ha ws ast o i0 p0).
    split; [|split].
    + rewrite enter_trace. simpl. unfold first_visit.
      by rewrite <- !app_assoc.
    + rewrite <- (app_nil_r (first_visit _ _ _ _ _ _ _)).
      apply blocks_new; [done..|constructor].
    + rewrite enter_visited. unfold first_visit. simpl. rewrite !adds_app.
      do 2 destruct (_ && _); simpl; set_solver.
Qed.
End Blocks.

(** X14: the trace of a walk is made of whole entries.  A node that is
    met first has its numeric hook run, then its asset hook, and is then
    marked, before the walker enters any other node; a node that is met
    again gets the entry and nothing else. *)
Theorem walk_goes_by_whole_entries to_snake_case join (h : heap) ws ast
    fuel root tr :
  (trace <$> _save_state to_snake_case join h ws ast fuel root "" fresh
   = Some tr →
   in_blocks h "_save_own_variables" "_save_assets" ws ast ∅ tr)
  ∧ (trace <$> _load_state to_snake_case join h ws ast fuel root "" fresh
     = Some tr →
     in_blocks h "_load_own_variables" "_load_assets" ws ast ∅ tr).
Proof.
  split; intros H.
  - rewrite save_state_walk in H.
    destruct (walk _ _ _ _ _ _ _ _ _ _ _) as [st|] eqn:E; [|done].
    injection H as <-.
    by destruct (walk_by_blocks _ _ _ _ _ _ _ _ _ _ _ _ E)
      as (d & -> & Hd & _).
  - rewrite load_state_walk in H.
    destruct (walk _ _ _ _ _ _ _ _ _ _ _) as [st|] eqn:E; [|done].
    injection H as <-.
    by destruct (walk_by_blocks _ _ _ _ _ _ _ _ _ _ _ _ E)
      as (d & -> & Hd & _).
Qed.

Lemma walk_goes_by_whole_entries_witness :
  in_blocks shared_graph "_save_own_variables" "_save_assets" true true ∅
    [ Call 0 ""; OwnVariables 0 ""; Add 0;
      Call 1 "first"; OwnVariables 1 "first"; OwnAssets 1 "first"; Add 1;
      Call 0 "first/owner";
      Call 1 "layers/foo";
      Call 1 "layers/foo_1";
      Call 2 "layers/foo_2"; OwnVariables 2 "layers/foo_2"; Add 2;
      Call 1 "second" ].
Proof.
  apply (walk_goes_by_whole_entries one_word posix_join shared_graph
           true true 5 0).
  vm_compute. reflexivity.
Defined.

(** * More of the top-level operations *)

(** ** When an operation returns *)

Lemma op_bind_ok {A B} (m : op A) (k : A → op B) w b w' :
  op_bind m k w = (Ok b, w') →
  ∃ a w1, m w = (Ok a, w1) ∧ k a w1 = (Ok b, w').
Proof. unfold op_bind. destruct (m w) as [[a|x] w1]; [eauto|done]. Qed.

Lemma try_finally_ok {A} (m : op A) (fin : op unit) w a w' :
  try_finally m fin w = (Ok a, w') →
  ∃ w1, m w = (Ok a, w1) ∧ fin w1 = (Ok (), w').
Proof.
  unfold try_finally. destruct (m w) as [r w1].
  destruct (fin w1) as [[[]|x] w2] eqn:E; [|done]. intros [= -> ->]. eauto.
Qed.

Lemma call_ok e name w u w' :
  call e name w = (Ok u, w') → raises e name = false ∧ w' = w.
Proof. unfold call. destruct (raises e name); [done|]. by intros [= _ ->]. Qed.

Lemma zip_open_ok e filepath w u w' :
  zip_open e filepath w = (Ok u, w') → is_Some (disk w !! filepath) ∧ w' = w.
Proof.
  unfold zip_open. intros H.
  apply op_bind_ok in H as (? & w1 & [_ ->]%call_ok & H).
  unfold op_bind, read_disk in H. case_bool_decide; [|done].
  by injection H as _ ->.
Qed.

Lemma zip_read_ok e filepath name w u w' :
  zip_read e filepath name w = (Ok u, w') →
  name ∈ default [] (disk w !! filepath) ∧ w' = w.
Proof.
  unfold zip_read, op_bind, read_disk. case_bool_decide; [|done].
  by intros [_ ->]%call_ok.
Qed.

Lemma zip_create_ok e filepath w u w' :
  zip_create e filepath w = (Ok u, w') →
  w' = World (_SAVING_V3_ENABLED w) (<[ filepath := [] ]> (disk w))
         (warned w) (walked w).
Proof.
  unfold zip_create. intros H.
  apply op_bind_ok in H as (? & w1 & [_ ->]%call_ok & H).
  unfold op_bind, read_disk, write_disk in H. by injection H as <-.
Qed.

Lemma zip_add_ok e filepath name w u w' :
  zip_add e filepath name w = (Ok u, w') →
  w' = World (_SAVING_V3_ENABLED w)
         (<[ filepath := default [] (disk w !! filepath) ++ [name] ]> (disk w))
         (warned w) (walked w).
Proof.
  unfold zip_add. intros H.
  apply op_bind_ok in H as (? & w1 & [_ ->]%call_ok & H).
  unfold op_bind, read_disk, write_disk in H. by injection H as <-.
Qed.

Lemma warn_ok e w u w' :
  warn e w = (Ok u, w') →
  w' = World (_SAVING_V3_ENABLED w) (disk w) (S (warned w)) (walked w).
Proof.
  unfold warn. intros H.
  apply op_bind_ok in H as (? & w1 & [_ ->]%call_ok & H).
  by injection H as <-.
Qed.

Lemma walk_load_ok to_snake_case join e m ws ast w u w' :
  walk_load to_snake_case join e m ws ast w = (Ok u, w') →
  ∃ st,
    _load_state to_snake_case join (graph m) ws ast (S (size (graph m)))
      (root m) "" fresh = Some st
    ∧ w' = World (_SAVING_V3_ENABLED w) (disk w) (warned w) (trace st).
Proof.
  unfold walk_load. intros H.
  apply op_bind_ok in H as (? & w1 & [_ ->]%call_ok & H).
  destruct (_load_state _ _ _ _ _ _ _ _ _) as [st|]; [|done].
  injection H as <-. eauto.
Qed.

Lemma walk_save_ok to_snake_case join e m ws ast w u w' :
  walk_save to_snake_case join e m ws ast w = (Ok u, w') →
  ∃ st,
    _save_state to_snake_case join (graph m) ws ast (S (size (graph m)))
      (root m) "" fresh = Some st
    ∧ w' = World (_SAVING_V3_ENABLED w) (disk w) (warned w) (trace st).
Proof.
  unfold walk_save. intros H.
  apply op_bind_ok in H as (? & w1 & [_ ->]%call_ok & H).
  destruct (_save_state _ _ _ _ _ _ _ _ _) as [st|]; [|done].
  injection H as <-. eauto.
Qed.

(** A walk with no asset store runs no asset hook, and a walk with no
    weights store no numeric hook. *)
Lemma walk_without_store to_snake_case join h hv ha ws ast fuel i p st :
  walk to_snake_case join h hv ha ws ast fuel i p fresh = Some st →
  ∀ id, (ast = false → assets_paths id (trace st) = [])
        ∧ (ws = false → variables_paths id (trace st) = []).
Proof.
  intros Hw id.
  pose proof (walk_consistent _ _ _ _ _ _ _ _ _ _ _ _ Hw
                (consistent_fresh _ _ _ _ _)) as Hc.
  destruct (decide (id ∈ visited_trackables st)) as [Hin|Hout].
  - destruct (cons_in _ _ _ _ _ _ Hc id Hin) as (o & q & _ & _ & Hv & Ha).
    split; intros ->; [rewrite Ha|rewrite Hv]; by rewrite andb_false_r.
  - destruct (cons_out _ _ _ _ _ _ Hc id Hout) as (_ & Hv & Ha). done.
Qed.

(** X15: when [load_model] returns, it returns the model that was built
    from the configuration; the archive has the configuration and a
    weights file; the walker ran once, from the root of that model, with
    the empty path and an empty visited set, and with an asset store only
    if the archive has a member that is named [assets], no asset hook
    running otherwise; the flag is as it was read, and the archives are
    as they were. *)
Theorem load_model_returns to_snake_case join e rebuilt filepath compile
    w m w' :
  load_model to_snake_case join e rebuilt filepath compile w = (Ok m, w') →
  m = rebuilt
  ∧ endswith filepath ".keras" = true
  ∧ ∃ names st,
      disk w !! filepath = Some names
      ∧ _CONFIG_FILENAME ∈ names
      ∧ (_VARS_FNAME +:+ ".h5" ∈ names ∨ _VARS_FNAME +:+ ".npz" ∈ names)
      ∧ _load_state to_snake_case join (graph rebuilt) true
          (bool_decide (_ASSETS_DIRNAME ∈ names))
          (S (size (graph rebuilt))) (root rebuilt) "" fresh = Some st
      ∧ w' = World (Some (saving_v3_enabled w)) (disk w) (warned w) (trace st)
      ∧ (_ASSETS_DIRNAME ∉ names → ∀ id, assets_paths id (trace st) = []).
Proof.
  unfold load_model. intros H.
  destruct (endswith filepath ".keras") eqn:Hext; [|done]. simpl negb in H.
  cbv iota in H.
  apply op_bind_ok in H as (v & w1 & [= <- <-] & H).
  apply op_bind_ok in H as ([] & w1 & [= <-] & H).
  apply try_finally_ok in H as (w2 & H & [= <-]).
  apply op_bind_ok in H as ([] & w3 & [[names Hnames] ->]%zip_open_ok & H).
  apply try_finally_ok in H as (w4 & H & [_ ->]%call_ok).
  apply op_bind_ok in H as ([] & w5 & [Hconf ->]%zip_read_ok & H).
  apply op_bind_ok in H as ([] & w5 & [_ ->]%call_ok & H).
  apply op_bind_ok in H as ([] & w5 & Hcompile & H).
  assert (w5 = World (Some true) (disk w) (warned w) (walked w)) as ->.
  { destruct (negb compile); [by apply call_ok in Hcompile as [_ ->]|].
    by injection Hcompile as <-. }
  clear Hcompile.
  apply op_bind_ok in H as ([] & w5 & [_ ->]%call_ok & H).
  apply op_bind_ok in H as (all & w5 & [= <- <-] & H).
  simpl in Hnames, Hconf, H. rewrite Hnames in Hconf, H. simpl in Hconf, H.
  remember (bool_decide (_ASSETS_DIRNAME ∈ names)) as a eqn:Ea.
  apply op_bind_ok in H as ([] & w5 & Hstore & H).
  assert (w5 = World (Some true) (disk w) (warned w) (walked w)
          ∧ (_VARS_FNAME +:+ ".h5" ∈ names ∨ _VARS_FNAME +:+ ".npz" ∈ names))
    as [-> Hvars].
  { destruct (decide (_VARS_FNAME +:+ ".h5" ∈ names)) as [Hh5|Hh5].
    - rewrite bool_decide_eq_true_2 in Hstore by done.
      apply call_ok in Hstore as [_ ->]. eauto.
    - rewrite bool_decide_eq_false_2 in Hstore by done.
      destruct (decide (_VARS_FNAME +:+ ".npz" ∈ names)) as [Hnpz|Hnpz].
      + rewrite bool_decide_eq_true_2 in Hstore by done.
        apply call_ok in Hstore as [_ ->]. eauto.
      + by rewrite bool_decide_eq_false_2 in Hstore by done. }
  clear Hstore.
  apply op_bind_ok in H as ([] & w5 & Hassets & H).
  assert (w5 = World (Some true) (disk w) (warned w) (walked w)) as ->.
  { destruct a; [by apply call_ok in Hassets as [_ ->]|].
    by injection Hassets as <-. }
  clear Hassets.
  apply op_bind_ok in H as ([] & w5 & (st & Hst & ->)%walk_load_ok & H).
  apply op_bind_ok in H as ([] & w5 & [_ ->]%call_ok & H).
  apply op_bind_ok in H as ([] & w5 & Hclose & H).
  injection H as <- <-.
  assert (w5 = World (Some true) (disk w) (warned w) (trace st)) as ->.
  { destruct a; [by apply call_ok in Hclose as [_ ->]|].
    by injection Hclose as <-. }
  split; [done|]. split; [done|]. exists names, st.
  subst a. do 5 (split; [done|]).
  intros Hno id. rewrite load_state_walk in Hst.
  rewrite bool_decide_eq_false_2 in Hst by done.
  by apply (walk_without_store _ _ _ _ _ _ _ _ _ _ _ Hst id).
Qed.

Lemma load_model_returns_witness :
  rebuilt_model = rebuilt_model
  ∧ endswith "model.keras" ".keras" = true
  ∧ ∃ names st,
      disk saved !! "model.keras" = Some names
      ∧ _CONFIG_FILENAME ∈ names
      ∧ (_VARS_FNAME +:+ ".h5" ∈ names ∨ _VARS_FNAME +:+ ".npz" ∈ names)
      ∧ _load_state one_word posix_join (graph rebuilt_model) true
          (bool_decide (_ASSETS_DIRNAME ∈ names))
          (S (size (graph rebuilt_model))) (root rebuilt_model) "" fresh
        = Some st
      ∧ (load_model one_word posix_join obliging rebuilt_model "model.keras"
           true saved).2
        = World (Some (saving_v3_enabled saved)) (disk saved) (warned saved)
            (trace st)
      ∧ (_ASSETS_DIRNAME ∉ names → ∀ id, assets_paths id (trace st) = []).
Proof.
  apply (load_model_returns one_word posix_join obliging rebuilt_model
           "model.keras" true saved).
  vm_compute. reflexivity.
Defined.

(** ** What an operation leaves alone *)

#[local] Instance same_files_preorder : PreOrder same_files.
Proof.
  split; [by intros w|].
  intros w1 w2 w3 [H1 H2] [H3 H4]. split; congruence.
Qed.

#[local] Instance same_flag_preorder : PreOrder same_flag.
Proof. split; [by intros w|]. intros w1 w2 w3 H1 H2. unfold same_flag in *. congruence. Qed.

Section Keeps.
Context (R : relation world) `{!PreOrder R}.

Lemma keeps_ret {A} (a : A) : keeps R (op_ret a).
Proof. intros w. reflexivity. Qed.

Lemma keeps_raise {A} x : keeps R (raise (A:=A) x).
Proof. intros w. reflexivity. Qed.

Lemma keeps_bind {A B} (m : op A) (k : A → op B) :
  keeps R m → (∀ a, keeps R (k a)) → keeps R (op_bind m k).
Proof.
  intros Hm Hk w. unfold op_bind. specialize (Hm w).
  destruct (m w) as [[a|x] w1]; [|done].
  etrans; [exact Hm|apply Hk].
Qed.

Lemma keeps_try_finally {A} (m : op A) fin :
  keeps R m → keeps R fin → keeps R (try_finally m fin).
Proof.
  intros Hm Hfin w. unfold try_finally. specialize (Hm w).
  destruct (m w) as [r w1]. specialize (Hfin w1).
  destruct (fin w1) as [[[]|x] w2]; by etrans.
Qed.

Lemma keeps_if {A} (b : bool) (m1 m2 : op A) :
  keeps R m1 → keeps R m2 → keeps R (if b then m1 else m2).
Proof. by destruct b. Qed.

Lemma keeps_call e name : keeps R (call e name).
Proof. unfold call. apply keeps_if; [apply keeps_raise|apply keeps_ret]. Qed.

Lemma keeps_read_disk : keeps R read_disk.
Proof. intros w. reflexivity. Qed.

Lemma keeps_read_value : keeps R read_value.
Proof. intros w. reflexivity. Qed.

Lemma keeps_zip_open e filepath : keeps R (zip_open e filepath).
Proof.
  unfold zip_open. apply keeps_bind; [apply keeps_call|intros _].
  apply keeps_bind; [apply keeps_read_disk|intros d].
  apply keeps_if; [apply keeps_ret|apply keeps_raise].
Qed.

Lemma keeps_zip_read e filepath name : keeps R (zip_read e filepath name).
Proof.
  unfold zip_read. apply keeps_bind; [apply keeps_read_disk|intros d].
  apply keeps_if; [apply keeps_call|apply keeps_raise].
Qed.

Lemma keeps_namelist filepath : keeps R (namelist filepath).
Proof.
  unfold namelist. apply keeps_bind; [apply keeps_read_disk|intros d].
  apply keeps_ret.
Qed.

Lemma keeps_walk_load to_snake_case join e m ws ast :
  (∀ w tr, R w (World (_SAVING_V3_ENABLED w) (disk w) (warned w) tr)) →
  keeps R (walk_load to_snake_case join e m ws ast).
Proof.
  intros HR. unfold walk_load. apply keeps_bind; [apply keeps_call|intros _].
  destruct (_load_state _ _ _ _ _ _ _ _ _) as [st|]; [|apply keeps_raise].
  intros w0. apply HR.
Qed.

Lemma keeps_walk_save to_snake_case join e m ws ast :
  (∀ w tr, R w (World (_SAVING_V3_ENABLED w) (disk w) (warned w) tr)) →
  keeps R (walk_save to_snake_case join e m ws ast).
Proof.
  intros HR. unfold walk_save. apply keeps_bind; [apply keeps_call|intros _].
  destruct (_save_state _ _ _ _ _ _ _ _ _) as [st|]; [|apply keeps_raise].
  intros w0. apply HR.
Qed.
End Keeps.

Ltac keeps_steps :=
  repeat first
    [ lazymatch goal with |- PreOrder _ => exact _ end
    | lazymatch goal with |- ∀ _, _ => intros ? end
    | apply keeps_ret | apply keeps_raise | apply keeps_call
    | apply keeps_read_disk | apply keeps_read_value
    | apply keeps_zip_open | apply keeps_zip_read | apply keeps_namelist
    | apply keeps_walk_load
    | apply keeps_walk_save
    | apply keeps_bind
    | apply keeps_try_finally
    | apply keeps_if ].

(** X16: however [load_model] ends, it leaves the archives and the
    warnings as they were, and the flag as [saving_v3_enabled] read it
    before the call. *)
Theorem load_model_only_reads to_snake_case join e rebuilt filepath
    compile w :
  let w' := (load_model to_snake_case join e rebuilt filepath compile w).2 in
  disk w' = disk w
  ∧ warned w' = warned w
  ∧ saving_v3_enabled w' = saving_v3_enabled w.
Proof.
  intros w'. split_and!.
  - unfold w', load_model. destruct (negb _); [done|].
    unfold op_bind at 1. simpl. unfold op_bind at 1. simpl.
    rewrite (proj1 (try_finally_disk _ _ _)).
    match goal with
    | |- disk (?m ?w0).2 = _ =>
        assert (keeps same_files m) as Hk; [|by destruct (Hk w0)]
    end.
    unfold closing_archive. keeps_steps. done.
  - unfold w', load_model. destruct (negb _); [done|].
    unfold op_bind at 1. simpl. unfold op_bind at 1. simpl.
    unfold try_finally.
    match goal with
    | |- warned (let '(_, _) := ?m ?w0 in _).2 = _ =>
        assert (keeps same_files m) as Hk;
          [|destruct (Hk w0) as [_ Hw]; by destruct (m w0) as [[?|?] ?]]
    end.
    unfold closing_archive. keeps_steps. done.
  - apply load_model_restores_flag.
Qed.

(** X17: an archive that has the configuration but neither weights file
    is turned down with a [ValueError]: the model has been built from the
    configuration by then, but no state is loaded, and the world is left
    as it was. *)
Theorem load_model_without_weights_file to_snake_case join e rebuilt
    filepath compile w names :
  endswith filepath ".keras" = true →
  disk w !! filepath = Some names →
  _CONFIG_FILENAME ∈ names →
  _VARS_FNAME +:+ ".h5" ∉ names → _VARS_FNAME +:+ ".npz" ∉ names →
  (∀ c, raises e c = false) →
  load_model to_snake_case join e rebuilt filepath compile w
  = (Raise (ValueError
              ("Expected a " +:+ _VARS_FNAME +:+ ".h5 or "
               +:+ _VARS_FNAME +:+ ".npz file.")),
     World (Some (saving_v3_enabled w)) (disk w) (warned w) (walked w)).
Proof.
  intros Hext Hnames Hconf Hh5 Hnpz Hno. unfold load_model.
  rewrite Hext. simpl negb. cbv iota.
  unfold zip_open, zip_read, namelist, closing_archive, call.
  rewrite !Hno. unfold op_bind, try_finally, read_value, write_value,
    read_disk, op_ret, raise. simpl.
  rewrite Hnames. simpl. rewrite Hnames. simpl.
  rewrite (bool_decide_eq_true_2 (_CONFIG_FILENAME ∈ names)) by done.
  destruct (negb compile); simpl; rewrite Hnames; simpl;
    by rewrite !(bool_decide_eq_false_2 (_ ∈ names)) by done.
Qed.

Lemma load_model_without_weights_file_witness :
  load_model one_word posix_join obliging rebuilt_model "model.keras" true
    half_saved
  = (Raise (ValueError
              ("Expected a " +:+ _VARS_FNAME +:+ ".h5 or "
               +:+ _VARS_FNAME +:+ ".npz file.")),
     World (Some (saving_v3_enabled half_saved)) (disk half_saved)
       (warned half_saved) (walked half_saved)).
Proof.
  apply (load_model_without_weights_file one_word posix_join obliging
           rebuilt_model "model.keras" true half_saved
           ["metadata.json"; "config.json"]).
  - reflexivity.
  - reflexivity.
  - apply (bool_decide_unpack _). vm_compute. exact I.
  - apply (bool_decide_unpack _). vm_compute. exact I.
  - apply (bool_decide_unpack _). vm_compute. exact I.
  - reflexivity.
Defined.

(** What [save_model] has done when it returns. *)
Lemma save_model_ok to_snake_case join e m filepath weights_format w u w' :
  save_model to_snake_case join e m filepath weights_format w = (Ok u, w') →
  endswith filepath ".keras" = true
  ∧ (weights_format = "h5" ∧ h5py e = true ∨ weights_format = "npz")
  ∧ ∃ st,
      _save_state to_snake_case join (graph m) true true
        (S (size (graph m))) (root m) "" fresh = Some st
      ∧ w' = World (Some (saving_v3_enabled w))
               (<[ filepath := [ _METADATA_FILENAME; _CONFIG_FILENAME;
                                 _VARS_FNAME +:+ "." +:+ weights_format ] ]>
                  (disk w))
               (if built m then warned w else S (warned w))
               (trace st).
Proof.
  unfold save_model. intros H.
  destruct (endswith filepath ".keras") eqn:Hext; [|done]. simpl negb in H.
  cbv iota in H.
  destruct (bool_decide (weights_format = "h5") && negb (h5py e)) eqn:Hh5;
    [done|].
  apply op_bind_ok in H as ([] & w0 & Hwarn & H).
  assert (w0 = World (_SAVING_V3_ENABLED w) (disk w)
                 (if built m then warned w else S (warned w)) (walked w))
    as ->.
  { destruct (built m); simpl in Hwarn; [|by apply warn_ok in Hwarn].
    injection Hwarn as <-. by destruct w. }
  clear Hwarn.
  apply op_bind_ok in H as (v & w1 & [= <- <-] & H).
  apply op_bind_ok in H as ([] & w1 & [= <-] & H).
  do 4 apply op_bind_ok in H as ([] & ? & [_ ->]%call_ok & H).
  apply try_finally_ok in H as (w2 & H & [= <-]).
  apply op_bind_ok in H as ([] & ? & ->%zip_create_ok & H).
  apply try_finally_ok in H as (w3 & H & [_ ->]%call_ok).
  do 2 apply op_bind_ok in H as ([] & ? & ->%zip_add_ok & H).
  apply op_bind_ok in H as (member & w4 & Hmember & H).
  cbn [disk _SAVING_V3_ENABLED warned walked] in *.
  rewrite !lookup_insert_eq, !insert_insert_eq in *. simpl in Hmember, H.
  match type of Hmember with _ ?w0 = _ => set (wa := w0) in * end.
  assert (w4 = wa ∧ member = _VARS_FNAME +:+ "." +:+ weights_format
          ∧ (weights_format = "h5" ∧ h5py e = true ∨ weights_format = "npz"))
    as (-> & -> & Hfmt).
  { destruct (decide (weights_format = "h5")) as [->|Hne].
    - simpl in Hmember, Hh5.
      apply op_bind_ok in Hmember as ([] & ? & [_ ->]%call_ok & [= <- <-]).
      split; [done|]. split; [done|]. left. split; [done|].
      by destruct (h5py e).
    - rewrite (bool_decide_eq_false_2 (weights_format = "h5")) in Hmember
        by done.
      destruct (decide (weights_format = "npz")) as [->|Hne'].
      + simpl in Hmember.
        apply op_bind_ok in Hmember as ([] & ? & [_ ->]%call_ok & [= <- <-]).
        eauto.
      + by rewrite (bool_decide_eq_false_2 (weights_format = "npz"))
          in Hmember by done. }
  clear Hmember. subst wa.
  apply op_bind_ok in H as ([] & ? & [_ ->]%call_ok & H).
  apply op_bind_ok in H as ([] & ? & (st & Hst & ->)%walk_save_ok & H).
  apply op_bind_ok in H as ([] & ? & [_ ->]%call_ok & H).
  apply op_bind_ok in H as ([] & ? & ->%zip_add_ok & H).
  apply call_ok in H as [_ ->].
  cbn [disk _SAVING_V3_ENABLED warned walked].
  rewrite !lookup_insert_eq, !insert_insert_eq. simpl.
  split; [done|]. split; [done|]. exists st. split; [done|].
  unfold saving_v3_enabled. simpl. done.
Qed.

(** X18: when [save_model] returns, the file path ends in [.keras] and the
    weights format is one of the two that it knows; the archive at the
    file path was made anew and starts with the metadata, the
    configuration and the weights file of that format, in this order; no
    other archive was touched; the walker ran once, from the root of the
    model, with the empty path, an empty visited set and both stores; the
    flag is as it was read before the call, and one warning was issued if
    the model was not built. *)
Theorem save_model_returns to_snake_case join e m filepath weights_format
    w u w' :
  save_model to_snake_case join e m filepath weights_format w = (Ok u, w') →
  endswith filepath ".keras" = true
  ∧ (weights_format = "h5" ∧ h5py e = true ∨ weights_format = "npz")
  ∧ (∃ names,
       disk w' !! filepath = Some names
       ∧ [ _METADATA_FILENAME; _CONFIG_FILENAME;
           _VARS_FNAME +:+ "." +:+ weights_format ] `prefix_of` names)
  ∧ (∀ other, other ≠ filepath → disk w' !! other = disk w !! other)
  ∧ (∃ st,
       _save_state to_snake_case join (graph m) true true
         (S (size (graph m))) (root m) "" fresh = Some st
       ∧ walked w' = trace st)
  ∧ saving_v3_enabled w' = saving_v3_enabled w
  ∧ warned w' = if built m then warned w else S (warned w).
Proof.
  intros H. apply save_model_ok in H as (Hext & Hfmt & st & Hst & ->).
  split; [done|]. split; [done|]. simpl. split; [|split; [|split]].
  - eexists. by rewrite lookup_insert_eq.
  - intros other Hother. by rewrite lookup_insert_ne.
  - eauto.
  - done.
Qed.

Lemma save_model_returns_witness :
  endswith "model.keras" ".keras" = true
  ∧ ("h5" = "h5" ∧ h5py obliging = true ∨ "h5" = "npz")
  ∧ (∃ names,
       disk saved !! "model.keras" = Some names
       ∧ [ _METADATA_FILENAME; _CONFIG_FILENAME;
           _VARS_FNAME +:+ "." +:+ "h5" ] `prefix_of` names)
  ∧ (∀ other, other ≠ "model.keras" → disk saved !! other = disk quiet !! other)
  ∧ (∃ st,
       _save_state one_word posix_join (graph shared_model) true true
         (S (size (graph shared_model))) (root shared_model) "" fresh
       = Some st
       ∧ walked saved = trace st)
  ∧ saving_v3_enabled saved = saving_v3_enabled quiet
  ∧ warned saved = if built shared_model then warned quiet
                   else S (warned quiet).
Proof.
  apply (save_model_returns one_word posix_join obliging shared_model
           "model.keras" "h5" quiet ()).
  vm_compute. reflexivity.
Defined.



(** X21: the two weights-only operations never write the flag: however
    they end, [saving_v3_enabled] reads after them what it read before. *)
Theorem weights_only_leave_the_flag to_snake_case join e m filepath w :
  _SAVING_V3_ENABLED
    (save_weights_only to_snake_case join e m filepath w).2
  = _SAVING_V3_ENABLED w
  ∧ _SAVING_V3_ENABLED
      (load_weights_only to_snake_case join e m filepath w).2
    = _SAVING_V3_ENABLED w.
Proof.
  split.
  - assert (keeps same_flag
              (save_weights_only to_snake_case join e m filepath)) as Hk;
      [|exact (Hk w)].
    unfold save_weights_only. keeps_steps. done.
  - assert (keeps same_flag
              (load_weights_only to_snake_case join e m filepath)) as Hk;
      [|exact (Hk w)].
    unfold load_weights_only. keeps_steps. done.
Qed.

(** X22: a file path with another extension makes [save_weights_only]
    raise [ValueError], and makes [load_weights_only] raise
    [UnboundLocalError], when it comes to the store that it has not made;
    neither has done anything by then. *)
Theorem weights_only_other_extension to_snake_case join e m filepath w :
  endswith filepath ".weights.h5" = false →
  save_weights_only to_snake_case join e m filepath w
  = (Raise (ValueError
              ("Invalid `filepath` argument: "
               +:+ "expected a `.weights.h5` extension. "
               +:+ "Received: filepath=" +:+ filepath)), w)
  ∧ (endswith filepath ".keras" = false →
     load_weights_only to_snake_case join e m filepath w
     = (Raise (UnboundLocalError "weights_store"), w)).
Proof.
  intros Hext. unfold save_weights_only, load_weights_only. rewrite Hext.
  split; [done|]. by intros ->.
Qed.

Lemma weights_only_other_extension_witness :
  save_weights_only one_word posix_join obliging shared_model "model.h5" quiet
  = (Raise (ValueError
              ("Invalid `filepath` argument: "
               +:+ "expected a `.weights.h5` extension. "
               +:+ "Received: filepath=" +:+ "model.h5")), quiet)
  ∧ (endswith "model.h5" ".keras" = false →
     load_weights_only one_word posix_join obliging shared_model "model.h5"
       quiet
     = (Raise (UnboundLocalError "weights_store"), quiet)).
Proof.
  apply (weights_only_other_extension one_word posix_join obliging
           shared_model "model.h5" quiet).
  reflexivity.
Defined.

(** X19: once the configuration and the metadata have been serialized,
    [save_model] leaves the flag as [saving_v3_enabled] read it before the
    call, however the writing of the archive ends; and so it does when
    the warning for a model that is not built is raised as an error. *)
Theorem save_model_flag_after_serializing to_snake_case join e m filepath
    weights_format w :
  raises e "serialize_keras_object" = false →
  raises e "json.dumps" = false →
  raises e "datetime.now" = false →
  saving_v3_enabled
    (save_model to_snake_case join e m filepath weights_format w).2
  = saving_v3_enabled w.
Proof.
  intros Hs Hj Hd. unfold save_model.
  destruct (negb _); [done|]. destruct (_ && _); [done|].
  unfold warn, call. rewrite Hs, Hj, Hd.
  destruct (negb (built m)); [destruct (raises e "warnings.warn"); [done|]|];
    simpl; unfold op_bind; simpl;
    unfold saving_v3_enabled at 1; by rewrite try_finally_write_value.
Qed.

Lemma save_model_flag_after_serializing_witness :
  saving_v3_enabled
    (save_model one_word posix_join
       (Env true (λ c, bool_decide (c = "ZipFile.write")))
       shared_model "model.keras" "h5" quiet).2
  = saving_v3_enabled quiet.
Proof.
  apply (save_model_flag_after_serializing one_word posix_join
           (Env true (λ c, bool_decide (c = "ZipFile.write")))
           shared_model "model.keras" "h5" quiet);
    reflexivity.
Defined.
